(** * Beam statistics of PlasmaMLPALLAS_Routine.py

    A shallow embedding of the two numeric functions of
    [src/Resultats/PlasmaMLPALLAS_Routine.py]:
    [compute_emittance_and_twiss] (lines 36-54) and [compute_rms_size]
    (lines 56-61), together with the numpy operations they call.

    Array elements are IEEE doubles.  A double is either a finite number,
    one of the two infinities, or not-a-number.  The functions are embedded
    twice.  In the first embedding the finite doubles are real numbers and
    arithmetic on them is exact (no rounding and no overflow); it carries
    the algebraic properties, which rounding changes in value only.  In the
    second the functions are written over any type of doubles with its own
    operations; it carries the properties that turn on which branch a run
    takes or on a result being exactly zero, and it is run on binary64
    where a value is shown.  With exact arithmetic the second embedding is
    the first. *)

From Stdlib Require Import Floats.PrimFloat.
From Stdlib Require Uint63.
From Stdlib Require Import ZArith Reals Lra Lia List Bool Arith Permutation.
Import ListNotations.

Open Scope R_scope.

(** ** Doubles *)

Inductive float : Type :=
| Fin (r : R)
| PInf
| NInf
| NaN.

(** [np.isfinite] on one element. *)
Definition isfinite (v : float) : bool :=
  match v with
  | Fin _ => true
  | _ => false
  end.

Definition Rleb (a b : R) : bool := if Rle_dec a b then true else false.
Definition Rltb (a b : R) : bool := if Rlt_dec a b then true else false.

(** [v >= c] and [v <= c] for an array element [v] and a finite bound [c],
    with the IEEE rules: every comparison with not-a-number is false. *)
Definition float_ge (v : float) (c : R) : bool :=
  match v with
  | Fin r => Rleb c r
  | PInf => true
  | NInf => false
  | NaN => false
  end.

Definition float_le (v : float) (c : R) : bool :=
  match v with
  | Fin r => Rleb r c
  | PInf => false
  | NInf => true
  | NaN => false
  end.

(** [v > c] *)
Definition float_gt (v : float) (c : R) : bool :=
  match v with
  | Fin r => Rltb c r
  | PInf => true
  | NInf => false
  | NaN => false
  end.

(** ** Exceptions and the events of the arithmetic *)

Inductive exn : Type :=
| ValueError   (* operands could not be broadcast together *)
| IndexError.  (* boolean index did not match the indexed array *)

Inductive result (A : Type) : Type :=
| Ok (a : A)
| Raise (e : exn).
Arguments Ok {A} a.
Arguments Raise {A} e.

Definition result_map {A B : Type} (f : A -> B) (r : result A) : result B :=
  match r with
  | Ok a => Ok (f a)
  | Raise e => Raise e
  end.

(** The square roots and divisions the functions perform, in order. *)
Inductive event : Type :=
| EvSqrt (arg : R)
| EvDiv (num : R) (den : float).

(** A writer monad over the event log. *)
Definition Log (A : Type) : Type := (A * list event)%type.

Definition ret {A : Type} (a : A) : Log A := (a, []).

Definition bind {A B : Type} (m : Log A) (k : A -> Log B) : Log B :=
  let (a, l1) := m in
  let (b, l2) := k a in
  (b, l1 ++ l2).

Notation "x <- m ;; k" := (bind m (fun x => k))
  (at level 61, m at next level, right associativity).

(** [np.sqrt] of a finite number: not-a-number below zero. *)
Definition np_sqrt (r : R) : Log float :=
  (if Rltb r 0 then NaN else Fin (sqrt r), [EvSqrt r]).

(** [a / b] for a finite [a] and a double [b]. *)
Definition float_div (a : R) (b : float) : Log float :=
  match b with
  | Fin d =>
      (if Rltb 0 d then Fin (a / d)
       else if Rltb d 0 then Fin (a / d)
       else if Rltb 0 a then PInf
       else if Rltb a 0 then NInf
       else NaN,
       [EvDiv a b])
  | PInf | NInf => (Fin 0, [EvDiv a b])
  | NaN => (NaN, [EvDiv a b])
  end.

(** ** numpy on one-dimensional arrays *)

(** [a[mask]] for a boolean [mask] as long as [a]. *)
Fixpoint bool_index {A : Type} (a : list A) (mask : list bool) : list A :=
  match a, mask with
  | v :: a', b :: mask' =>
      if b then v :: bool_index a' mask' else bool_index a' mask'
  | _, _ => []
  end.

(** The finite elements of a masked array, as reals. *)
Fixpoint values (a : list float) : list R :=
  match a with
  | [] => []
  | Fin r :: a' => r :: values a'
  | _ :: a' => values a'
  end.

Definition np_sum (a : list R) : R := fold_right Rplus 0 a.

(** [np.mean] *)
Definition np_mean (a : list R) : R := np_sum a / INR (length a).

(** [np.dot] of two vectors. *)
Fixpoint np_dot (a b : list R) : R :=
  match a, b with
  | u :: a', v :: b' => u * v + np_dot a' b'
  | _, _ => 0
  end.

(** One row of the data matrix minus its average. *)
Definition center (a : list R) : list R :=
  map (fun v => v - np_mean a) a.

(** [np.cov(np.vstack(rows), ddof=ddof)]: each row is centred, the matrix
    of dot products is formed and scaled by one over [N - ddof], which
    numpy replaces by zero when it is not positive. *)
Definition np_cov (rows : list (list R)) (ddof : nat) : list (list R) :=
  let N := match rows with [] => O | r :: _ => length r end in
  let fact := INR N - INR ddof in
  let fact := if Rleb fact 0 then 0 else fact in
  let X := map center rows in
  map (fun ri => map (fun rj => np_dot ri rj * (1 / fact)) X) X.

(** [c[i, j]] *)
Definition item (c : list (list R)) (i j : nat) : R :=
  nth j (nth i c []) 0.

(** ** Element-wise operations, with numpy's broadcasting *)

Definition rbind {A B : Type} (r : result A) (k : A -> result B) : result B :=
  match r with
  | Ok a => k a
  | Raise e => Raise e
  end.

Notation "x <-? r ;; k" := (rbind r (fun x => k))
  (at level 61, r at next level, right associativity).

Fixpoint zip_and (a b : list bool) : list bool :=
  match a, b with
  | u :: a', v :: b' => (u && v) :: zip_and a' b'
  | _, _ => []
  end.

(** [a & b] on boolean arrays: arrays of one length are combined element
    by element, an array of length one is stretched to the other's length,
    and any other pair of lengths is refused. *)
Definition np_and (a b : list bool) : result (list bool) :=
  if Nat.eqb (length a) (length b) then Ok (zip_and a b)
  else
    match a, b with
    | [u], _ => Ok (map (andb u) b)
    | _, [v] => Ok (map (fun u => u && v) a)
    | _, _ => Raise ValueError
    end.

(** [a[mask]]: the mask must be as long as the array, except that numpy
    takes an empty boolean mask on an array of any length and selects
    nothing with it. *)
Definition getitem {A : Type} (a : list A) (mask : list bool) : result (list A) :=
  if Nat.eqb (length mask) 0 || Nat.eqb (length a) (length mask)
  then Ok (bool_index a mask)
  else Raise IndexError.

(** ** The script's parameters (lines 27-28) *)

Definition limits : Type := (R * R)%type.

Definition pos_lim : limits := (-5, 5).
Definition angle_lim_mrad : limits := (-5, 5).

(** ** The two functions

    The script reads its two windows from module globals, looked up when
    a function runs; here each function takes them as its first arguments,
    and the script's own values are [pos_lim] and [angle_lim_mrad] above. *)

Definition twiss : Type := (float * float * float * float)%type.

Definition ge_arr (a : list float) (c : R) : list bool :=
  map (fun v => float_ge v c) a.
Definition le_arr (a : list float) (c : R) : list bool :=
  map (fun v => float_le v c) a.

(** Lines 37-41. *)
Definition emittance_mask (pos_lim angle_lim_mrad : limits)
    (x theta : list float) : result (list bool) :=
  m1 <-? np_and (map isfinite x) (map isfinite theta) ;;
  m2 <-? np_and m1 (ge_arr x (fst pos_lim)) ;;
  m3 <-? np_and m2 (le_arr x (snd pos_lim)) ;;
  m4 <-? np_and m3 (ge_arr theta (fst angle_lim_mrad)) ;;
  np_and m4 (le_arr theta (snd angle_lim_mrad)).

(** Lines 46-49: the three covariance terms and the determinant. *)
Definition cov_terms (x theta : list R) : R * R * R :=
  let cov := np_cov [x; theta] 1 in
  (item cov 0 0, item cov 0 1, item cov 1 1).

Definition determinant (s : R * R * R) : R :=
  let '(sig_x2, sig_xt, sig_t2) := s in
  sig_x2 * sig_t2 - sig_xt ^ 2.

(** Lines 44-54, on the masked arrays. *)
Definition twiss_of (x theta : list float) : Log twiss :=
  if Nat.ltb (length x) 2 then ret (NaN, NaN, NaN, NaN)
  else
    let '(sig_x2, sig_xt, sig_t2) := cov_terms (values x) (values theta) in
    let det := determinant (sig_x2, sig_xt, sig_t2) in
    eps <- (if Rltb 0 det then np_sqrt det else ret NaN) ;;
    alpha <- (if float_gt eps 0 then float_div (- sig_xt) eps else ret NaN) ;;
    beta <- (if float_gt eps 0 then float_div sig_x2 eps else ret NaN) ;;
    gamma <- (if float_gt eps 0 then float_div sig_t2 eps else ret NaN) ;;
    ret (eps, alpha, beta, gamma).

(** Lines 36-54, with the log of square roots and divisions. *)
Definition compute_emittance_and_twiss_log (pos_lim angle_lim_mrad : limits)
    (x theta : list float) : result (Log twiss) :=
  mask <-? emittance_mask pos_lim angle_lim_mrad x theta ;;
  x' <-? getitem x mask ;;
  theta' <-? getitem theta mask ;;
  Ok (twiss_of x' theta').

Definition compute_emittance_and_twiss (pos_lim angle_lim_mrad : limits)
    (x theta : list float) : result twiss :=
  result_map fst (compute_emittance_and_twiss_log pos_lim angle_lim_mrad x theta).

(** Line 57. *)
Definition rms_mask (pos_lim : limits) (x : list float) : result (list bool) :=
  m1 <-? np_and (map isfinite x) (ge_arr x (fst pos_lim)) ;;
  np_and m1 (le_arr x (snd pos_lim)).

(** Lines 59-61, on the masked array. *)
Definition rms_of (x : list float) : Log float :=
  if Nat.eqb (length x) 0 then ret NaN
  else
    let xs := values x in
    np_sqrt (np_mean (map (fun v => (v - np_mean xs) ^ 2) xs)).

(** Lines 56-61, with the log of square roots and divisions. *)
Definition compute_rms_size_log (pos_lim : limits) (x : list float)
    : result (Log float) :=
  mask <-? rms_mask pos_lim x ;;
  x' <-? getitem x mask ;;
  Ok (rms_of x').

Definition compute_rms_size (pos_lim : limits) (x : list float) : result float :=
  result_map fst (compute_rms_size_log pos_lim x).

(** ** The specification's vocabulary

    The filter window, the filtered samples and the statistics, written
    after the specification's sentences; the theorems below relate the
    functions above to them. *)

(** A closed interval, both endpoints included. *)
Definition in_window (lim : limits) (r : R) : Prop :=
  fst lim <= r <= snd lim.

Definition in_windowb (lim : limits) (r : R) : bool :=
  Rleb (fst lim) r && Rleb r (snd lim).

(** A position passes when it is finite and inside the window. *)
Definition passes (lim : limits) (v : float) : bool :=
  match v with
  | Fin r => in_windowb lim r
  | _ => false
  end.

(** A sample passes when both coordinates do. *)
Definition passes2 (plim alim : limits) (pa : float * float) : bool :=
  passes plim (fst pa) && passes alim (snd pa).

Definition filtered (plim : limits) (x : list float) : list R :=
  values (filter (passes plim) x).

Fixpoint values2 (s : list (float * float)) : list (R * R) :=
  match s with
  | [] => []
  | (Fin p, Fin a) :: s' => (p, a) :: values2 s'
  | _ :: s' => values2 s'
  end.

Definition filtered2 (plim alim : limits) (x theta : list float) : list (R * R) :=
  values2 (filter (passes2 plim alim) (combine x theta)).

Definition total (l : list R) : R := fold_right Rplus 0 l.

Definition mean (l : list R) : R := total l / INR (length l).

(** Sum of the products of the deviations of two coordinates. *)
Definition codev (f g : R * R -> R) (s : list (R * R)) : R :=
  total (map (fun pa => (f pa - mean (map f s)) * (g pa - mean (map g s))) s).

(** The unbiased estimator: divide by [n - 1]. *)
Definition sigma_pp (s : list (R * R)) : R := codev fst fst s / INR (length s - 1).
Definition sigma_pa (s : list (R * R)) : R := codev fst snd s / INR (length s - 1).
Definition sigma_aa (s : list (R * R)) : R := codev snd snd s / INR (length s - 1).

Definition det_of (s : list (R * R)) : R :=
  sigma_pp s * sigma_aa s - sigma_pa s * sigma_pa s.

(** The population estimator: divide by [n]. *)
Definition rms_population (l : list R) : R :=
  sqrt (total (map (fun v => (v - mean l) * (v - mean l)) l) / INR (length l)).

(** Steps 3 to 7 of the specification's contract, on the filtered samples. *)
Definition twiss_spec (s : list (R * R)) : twiss :=
  if Nat.ltb (length s) 2 then (NaN, NaN, NaN, NaN)
  else if Rltb 0 (det_of s) then
    (Fin (sqrt (det_of s)),
     Fin (- sigma_pa s / sqrt (det_of s)),
     Fin (sigma_pp s / sqrt (det_of s)),
     Fin (sigma_aa s / sqrt (det_of s)))
  else (NaN, NaN, NaN, NaN).

(** Steps 5 to 7 alone, from the three covariance terms. *)
Definition twiss_from_cov (spp spa saa : R) : twiss :=
  let det := spp * saa - spa * spa in
  if Rltb 0 det then
    (Fin (sqrt det), Fin (- spa / sqrt det),
     Fin (spp / sqrt det), Fin (saa / sqrt det))
  else (NaN, NaN, NaN, NaN).

(** A double that is a number or not-a-number, never an infinity. *)
Definition number_or_nan (v : float) : Prop :=
  v = NaN \/ exists r, v = Fin r.

(** Steps 2 and 3 of the contract of the size, on the filtered positions. *)
Definition rms_spec (l : list R) : float :=
  match l with
  | [] => NaN
  | _ :: _ => Fin (rms_population l)
  end.

Definition emittance_of (t : twiss) : float := let '(e, _, _, _) := t in e.
Definition alpha_of (t : twiss) : float := let '(_, a, _, _) := t in a.
Definition beta_of (t : twiss) : float := let '(_, _, b, _) := t in b.
Definition gamma_of (t : twiss) : float := let '(_, _, _, g) := t in g.

(** What the log of one call may hold: a square root of the determinant,
    taken when it is strictly positive, and divisions by the emittance,
    done when it is strictly positive. *)
Definition guarded_twiss_event (s : list (R * R)) (ev : event) : Prop :=
  match ev with
  | EvSqrt r => r = det_of s /\ 0 < r
  | EvDiv _ d => d = Fin (sqrt (det_of s)) /\ 0 < sqrt (det_of s)
  end.

(** The size takes one square root, of a mean of squares that is not
    negative, and divides by nothing. *)
Definition guarded_rms_event (ev : event) : Prop :=
  match ev with
  | EvSqrt r => 0 <= r
  | EvDiv _ _ => False
  end.

(** ** The two functions over doubles with their own arithmetic

    The functions above compute on exact reals.  What a run on doubles
    returns depends on how each operation rounds, so the two functions are
    written once more, over any type [D] of doubles with its operations.
    What is proved of these holds whatever the rounding, and in particular
    of the exact arithmetic above and of binary64. *)

(** The comparisons and the arithmetic of IEEE doubles. *)
Class Doubles (D : Type) : Type := {
  d_nan : D;                  (* [np.nan] *)
  d_zero : D;                 (* the [0] of [det > 0] and [eps > 0] *)
  d_isfinite : D -> bool;     (* [np.isfinite] *)
  d_isnan : D -> bool;        (* [np.isnan] *)
  d_le : D -> D -> bool;      (* [a <= b], and [b >= a] *)
  d_lt : D -> D -> bool;      (* [a < b], and [b > a] *)
  d_eq : D -> D -> bool;      (* [a == b] *)
  d_sub : D -> D -> D;
  d_mul : D -> D -> D;
  d_div : D -> D -> D;
  d_neg : D -> D;
  d_sqrt : D -> D             (* [np.sqrt] *)
}.

(** What [compute_rms_size] asks of numpy beyond them. *)
Class SizeOps (D : Type) {dd : Doubles D} : Type := {
  np_mean_in : list D -> D;   (* [np.mean] of a one-dimensional array *)
  d_square : D -> D           (* [v ** 2] on an array element *)
}.

(** What [compute_emittance_and_twiss] asks of numpy beyond them. *)
Class TwissOps (D : Type) {dd : Doubles D} : Type := {
  (* the entries [0,0], [0,1] and [1,1] of [np.cov(np.vstack([x, theta]), ddof=1)] *)
  np_cov_in : list D -> list D -> D * D * D;
  d_pow2 : D -> D             (* [v ** 2] on a scalar *)
}.

Definition limits_in (D : Type) : Type := (D * D)%type.

(** Line 57. *)
Definition rms_mask_in {D : Type} {dd : Doubles D}
    (pos_lim : limits_in D) (x : list D) : result (list bool) :=
  m1 <-? np_and (map d_isfinite x) (map (fun v => d_le (fst pos_lim) v) x) ;;
  np_and m1 (map (fun v => d_le v (snd pos_lim)) x).

(** Lines 56-61. *)
Definition compute_rms_size_in {D : Type} {dd : Doubles D} {so : SizeOps D}
    (pos_lim : limits_in D) (x : list D) : result D :=
  mask <-? rms_mask_in pos_lim x ;;
  x' <-? getitem x mask ;;
  Ok (if Nat.eqb (length x') 0 then d_nan
      else
        let m := np_mean_in x' in
        d_sqrt (np_mean_in (map (fun v => d_square (d_sub v m)) x'))).

(** Lines 37-41. *)
Definition emittance_mask_in {D : Type} {dd : Doubles D}
    (pos_lim angle_lim_mrad : limits_in D) (x theta : list D)
    : result (list bool) :=
  m1 <-? np_and (map d_isfinite x) (map d_isfinite theta) ;;
  m2 <-? np_and m1 (map (fun v => d_le (fst pos_lim) v) x) ;;
  m3 <-? np_and m2 (map (fun v => d_le v (snd pos_lim)) x) ;;
  m4 <-? np_and m3 (map (fun v => d_le (fst angle_lim_mrad) v) theta) ;;
  np_and m4 (map (fun v => d_le v (snd angle_lim_mrad)) theta).

(** Line 49. *)
Definition det_in {D : Type} {dd : Doubles D} {to : TwissOps D}
    (sig_x2 sig_xt sig_t2 : D) : D :=
  d_sub (d_mul sig_x2 sig_t2) (d_pow2 sig_xt).

(** Lines 44-54, on the masked arrays. *)
Definition twiss_in {D : Type} {dd : Doubles D} {to : TwissOps D}
    (x theta : list D) : D * D * D * D :=
  if Nat.ltb (length x) 2 then (d_nan, d_nan, d_nan, d_nan)
  else
    let '(sig_x2, sig_xt, sig_t2) := np_cov_in x theta in
    let det := det_in sig_x2 sig_xt sig_t2 in
    let eps := if d_lt d_zero det then d_sqrt det else d_nan in
    let alpha := if d_lt d_zero eps then d_div (d_neg sig_xt) eps else d_nan in
    let beta := if d_lt d_zero eps then d_div sig_x2 eps else d_nan in
    let gamma := if d_lt d_zero eps then d_div sig_t2 eps else d_nan in
    (eps, alpha, beta, gamma).

(** Lines 36-54. *)
Definition compute_emittance_and_twiss_in {D : Type} {dd : Doubles D}
    {to : TwissOps D} (pos_lim angle_lim_mrad : limits_in D)
    (x theta : list D) : result (D * D * D * D) :=
  mask <-? emittance_mask_in pos_lim angle_lim_mrad x theta ;;
  x' <-? getitem x mask ;;
  theta' <-? getitem theta mask ;;
  Ok (twiss_in x' theta').

(** Lines 92-95 (and 107-110, 145-148, 160-163): the label of an emittance
    panel is drawn when the emittance is not not-a-number, and formats the
    emittance, alpha and beta; gamma is never shown.  [None] is no label. *)
Definition emittance_label_in {D : Type} {dd : Doubles D}
    (t : D * D * D * D) : option (D * D * D) :=
  let '(eps, alpha, beta, _) := t in
  if negb (d_isnan eps) then Some (eps, alpha, beta) else None.

Definition first_of {D : Type} (t : D * D * D * D) : D :=
  let '(e, _, _, _) := t in e.

(** *** Exact arithmetic as one such arithmetic *)

Definition float_isnan (v : float) : bool :=
  match v with
  | NaN => true
  | _ => false
  end.

Definition float_leb (a b : float) : bool :=
  match a, b with
  | NaN, _ | _, NaN => false
  | NInf, _ | _, PInf => true
  | Fin u, Fin v => Rleb u v
  | _, _ => false
  end.

Definition float_ltb (a b : float) : bool :=
  match a, b with
  | NaN, _ | _, NaN => false
  | PInf, _ | _, NInf => false
  | Fin u, Fin v => Rltb u v
  | _, _ => true
  end.

Definition float_eqb (a b : float) : bool := float_leb a b && float_leb b a.

Definition float_sub (a b : float) : float :=
  match a, b with
  | NaN, _ | _, NaN => NaN
  | Fin u, Fin v => Fin (u - v)
  | PInf, PInf | NInf, NInf => NaN
  | PInf, _ | _, NInf => PInf
  | NInf, _ | _, PInf => NInf
  end.

(** The sign of a double: [Some true] above zero, [Some false] below,
    [None] for zero and not-a-number. *)
Definition float_sign (a : float) : option bool :=
  match a with
  | Fin u => if Rltb 0 u then Some true else if Rltb u 0 then Some false else None
  | PInf => Some true
  | NInf => Some false
  | NaN => None
  end.

Definition float_times (a b : float) : float :=
  match a, b with
  | Fin u, Fin v => Fin (u * v)
  | NaN, _ | _, NaN => NaN
  | _, _ =>
      match float_sign a, float_sign b with
      | Some sa, Some sb => if Bool.eqb sa sb then PInf else NInf
      | _, _ => NaN
      end
  end.

Definition float_quot (a b : float) : float :=
  match a, b with
  | NaN, _ | _, NaN => NaN
  | Fin u, Fin v =>
      if Rltb 0 v then Fin (u / v)
      else if Rltb v 0 then Fin (u / v)
      else match float_sign a with
           | Some true => PInf
           | Some false => NInf
           | None => NaN
           end
  | Fin _, _ => Fin 0
  | _, Fin _ =>
      match float_sign a, float_sign b with
      | Some sa, Some false => if sa then NInf else PInf
      | _, _ => a
      end
  | _, _ => NaN
  end.

Definition float_opp (a : float) : float :=
  match a with
  | Fin u => Fin (- u)
  | PInf => NInf
  | NInf => PInf
  | NaN => NaN
  end.

Definition float_sqrt (a : float) : float :=
  match a with
  | Fin u => if Rltb u 0 then NaN else Fin (sqrt u)
  | PInf => PInf
  | _ => NaN
  end.

#[export] Instance exact_doubles : Doubles float := {
  d_nan := NaN;
  d_zero := Fin 0;
  d_isfinite := isfinite;
  d_isnan := float_isnan;
  d_le := float_leb;
  d_lt := float_ltb;
  d_eq := float_eqb;
  d_sub := float_sub;
  d_mul := float_times;
  d_div := float_quot;
  d_neg := float_opp;
  d_sqrt := float_sqrt
}.

(** The exact mean and covariance of arrays of finite doubles.  The two
    functions mask their arrays first, so that no other array reaches
    these; on such an array this arithmetic answers not-a-number. *)
Definition exact_mean (l : list float) : float :=
  match l with
  | [] => NaN
  | _ :: _ => if forallb isfinite l then Fin (np_mean (values l)) else NaN
  end.

Definition exact_cov (x theta : list float) : float * float * float :=
  if forallb isfinite x && forallb isfinite theta then
    let '(a, b, c) := cov_terms (values x) (values theta) in (Fin a, Fin b, Fin c)
  else (NaN, NaN, NaN).

#[export] Instance exact_size : SizeOps float := {
  np_mean_in := exact_mean;
  d_square := fun v => float_times v v
}.

#[export] Instance exact_twiss : TwissOps float := {
  np_cov_in := exact_cov;
  d_pow2 := fun v => float_times v v
}.

(** *** Binary64, for [compute_rms_size] *)

Definition b64 : Type := PrimFloat.float.

#[export] Instance b64_doubles : Doubles b64 := {
  d_nan := PrimFloat.nan;
  d_zero := PrimFloat.zero;
  d_isfinite := fun v => negb (PrimFloat.is_nan v || PrimFloat.is_infinity v);
  d_isnan := PrimFloat.is_nan;
  d_le := PrimFloat.leb;
  d_lt := PrimFloat.ltb;
  d_eq := PrimFloat.eqb;
  d_sub := PrimFloat.sub;
  d_mul := PrimFloat.mul;
  d_div := PrimFloat.div;
  d_neg := PrimFloat.opp;
  d_sqrt := PrimFloat.sqrt
}.

Definition b64_of_nat (n : nat) : b64 :=
  PrimFloat.of_uint63 (Uint63.of_Z (Z.of_nat n)).

(** numpy's loop over fewer than 8 doubles: one accumulator. *)
Definition b64_loop (acc : b64) (l : list b64) : b64 :=
  fold_left PrimFloat.add l acc.

(** Eight accumulators, each taking every eighth double while a whole
    group of eight is left; what is left over comes back with them. *)
Fixpoint b64_groups (fuel : nat) (r l : list b64) : list b64 * list b64 :=
  match fuel with
  | O => (r, l)
  | S fuel' =>
      if Nat.leb 8 (length l) then
        b64_groups fuel'
          (map (fun ab => PrimFloat.add (fst ab) (snd ab)) (combine r (firstn 8 l)))
          (skipn 8 l)
      else (r, l)
  end.

(** numpy's sum of a block of 8 to 128 doubles. *)
Definition b64_block (l : list b64) : b64 :=
  let (r, rest) := b64_groups (length l) (firstn 8 l) (skipn 8 l) in
  let r' i := nth i r PrimFloat.zero in
  let res :=
    PrimFloat.add
      (PrimFloat.add (PrimFloat.add (r' 0%nat) (r' 1%nat))
                     (PrimFloat.add (r' 2%nat) (r' 3%nat)))
      (PrimFloat.add (PrimFloat.add (r' 4%nat) (r' 5%nat))
                     (PrimFloat.add (r' 6%nat) (r' 7%nat))) in
  b64_loop res rest.

(** numpy's pairwise summation of a contiguous array of doubles: the loop
    below 8 entries, a block up to 128, and above that the sums of two
    halves, the first a multiple of 8 long. *)
Fixpoint b64_pairwise (fuel : nat) (l : list b64) : b64 :=
  let n := length l in
  if Nat.ltb n 8 then b64_loop PrimFloat.neg_zero l
  else if Nat.leb n 128 then b64_block l
  else
    match fuel with
    | O => b64_block l
    | S fuel' =>
        let n2 := (n / 2 - (n / 2) mod 8)%nat in
        PrimFloat.add (b64_pairwise fuel' (firstn n2 l))
                      (b64_pairwise fuel' (skipn n2 l))
    end.

(** [np.mean]: the sum, started from the identity of [+], over the count. *)
Definition b64_mean (l : list b64) : b64 :=
  PrimFloat.div
    (PrimFloat.add PrimFloat.zero (b64_pairwise (length l) l))
    (b64_of_nat (length l)).

#[export] Instance b64_size : SizeOps b64 := {
  np_mean_in := b64_mean;
  d_square := fun v => PrimFloat.mul v v
}.

(** The laws of IEEE arithmetic that make a size exactly zero: a finite
    double minus an equal one is zero, the square of zero, the mean of
    zeros and the square root of zero are zero, and the mean of one finite
    double equals it. *)
Definition zero_laws (D : Type) {dd : Doubles D} {so : SizeOps D} : Prop :=
  (forall u m : D,
      d_isfinite u = true -> d_eq u m = true -> d_eq (d_sub u m) d_zero = true)
  /\ (forall d : D, d_eq d d_zero = true -> d_eq (d_square d) d_zero = true)
  /\ (forall l : list D,
        l <> [] -> Forall (fun q => d_eq q d_zero = true) l ->
        d_eq (np_mean_in l) d_zero = true)
  /\ (forall m : D, d_eq m d_zero = true -> d_eq (d_sqrt m) d_zero = true)
  /\ (forall v : D, d_isfinite v = true -> d_eq v (np_mean_in [v]) = true).

(** The laws behind the guard of the label: not-a-number is not-a-number,
    and the square root of a double above zero is a double above zero. *)
Definition label_laws (D : Type) {dd : Doubles D} : Prop :=
  d_isnan (d_nan : D) = true
  /\ (forall d : D,
        d_lt d_zero d = true ->
        d_isnan (d_sqrt d) = false /\ d_lt d_zero (d_sqrt d) = true).

(** The entries of an array a double mask of [compute_rms_size] keeps. *)
Definition kept_in {D : Type} {dd : Doubles D}
    (lim : limits_in D) (x : list D) : list D :=
  filter (fun v => d_isfinite v && d_le (fst lim) v && d_le v (snd lim)) x.

(** ** The script around the two functions *)

(** Lines 176 and 202: [len(x_hc) / Ntot * 100].  Python's division
    raises [ZeroDivisionError] on a zero divisor, which is [None] here. *)
Definition frac_stopped (n_stopped Ntot : nat) : option R :=
  if Nat.eqb Ntot 0 then None
  else Some (INR n_stopped / INR Ntot * 100).

(** The four outputs with beta and gamma exchanged. *)
Definition swap_twiss (t : twiss) : twiss :=
  let '(eps, alpha, beta, gamma) := t in (eps, alpha, gamma, beta).

(** ** Sample inputs *)

(** Four samples on the corners of a square: no correlation. *)
Definition square_x : list float := [Fin (-1); Fin 1; Fin (-1); Fin 1].
Definition square_theta : list float := [Fin (-1); Fin 1; Fin 1; Fin (-1)].

(** Scenario 2 of the specification: perfectly correlated samples. *)
Definition ramp : list float := [Fin 1; Fin 2; Fin 3; Fin 4; Fin 5].

(** One sample inside the windows and one outside. *)
Definition lone_x : list float := [Fin 0; Fin 7].
Definition lone_theta : list float := [Fin 1; Fin 1].

(** Scenario 3 of the specification: one position inside the window. *)
Definition triple : list float := [Fin (-1); Fin 0; Fin 1].

(** Three equal positions inside the script's window. *)
Definition flat : list float := [Fin 2; Fin 2; Fin 2].

(** The square of [square_x], [square_theta] among a position outside the
    window and a not-a-number position. *)
Definition noisy_x : list float :=
  [Fin (-1); Fin 1; Fin 7; Fin (-1); NaN; Fin 1].
Definition noisy_theta : list float :=
  [Fin (-1); Fin 1; Fin 0; Fin 1; Fin 0; Fin (-1)].

(** Angles twice as wide as the positions of [square_x]. *)
Definition rect_theta : list float := [Fin (-2); Fin 2; Fin 2; Fin (-2)].

(** Three times the double nearest to 0.1, and the positions of
    scenario 3, as binary64. *)
Definition tenths : list b64 :=
  [0x1.999999999999ap-4; 0x1.999999999999ap-4; 0x1.999999999999ap-4]%float.
Definition triple_b64 : list b64 := [-1; 0; 1]%float.

(** A sample on the bounds, one with a not-a-number position and one
    with an infinite angle. *)
Definition edge_x : list float := [Fin 5; NaN; Fin 0].
Definition edge_theta : list float := [Fin (-5); Fin 0; PInf].

(** The square of [square_x], [square_theta] with its first two samples
    exchanged. *)
Definition swapped_x : list float := [Fin 1; Fin (-1); Fin (-1); Fin 1].
Definition swapped_theta : list float := [Fin 1; Fin (-1); Fin 1; Fin (-1)].

(** * Properties *)

(** ** Comparisons *)

Lemma Rleb_true (a b : R) : Rleb a b = true <-> a <= b.
Proof. unfold Rleb; destruct (Rle_dec a b); split; intros; try easy; lra. Qed.

Lemma Rleb_false (a b : R) : Rleb a b = false <-> b < a.
Proof. unfold Rleb; destruct (Rle_dec a b); split; intros; try easy; lra. Qed.

Lemma Rltb_true (a b : R) : Rltb a b = true <-> a < b.
Proof. unfold Rltb; destruct (Rlt_dec a b); split; intros; try easy; lra. Qed.

Lemma Rltb_false (a b : R) : Rltb a b = false <-> b <= a.
Proof. unfold Rltb; destruct (Rlt_dec a b); split; intros; try easy; lra. Qed.

Lemma in_windowb_spec (lim : limits) (r : R) :
  in_windowb lim r = true <-> in_window lim r.
Proof.
  unfold in_windowb, in_window.
  rewrite andb_true_iff, !Rleb_true. tauto.
Qed.

Lemma passes_spec (lim : limits) (v : float) :
  passes lim v = true <-> exists r, v = Fin r /\ in_window lim r.
Proof.
  destruct v as [r| | |]; simpl.
  - rewrite in_windowb_spec. split.
    + intros H; exists r; auto.
    + intros (r' & E & H); injection E as ->; exact H.
  - split; [discriminate | intros (r & E & _); discriminate].
  - split; [discriminate | intros (r & E & _); discriminate].
  - split; [discriminate | intros (r & E & _); discriminate].
Qed.

(** Evaluates the comparisons of a closed term. *)
Ltac decide_cmp :=
  repeat match goal with
    | |- context [Rleb ?a ?b] =>
        first [ replace (Rleb a b) with true by (symmetry; apply Rleb_true; lra)
              | replace (Rleb a b) with false by (symmetry; apply Rleb_false; lra) ]
    | |- context [Rltb ?a ?b] =>
        first [ replace (Rltb a b) with true by (symmetry; apply Rltb_true; lra)
              | replace (Rltb a b) with false by (symmetry; apply Rltb_false; lra) ]
    end.

(** ** Masks and gathers *)

Lemma zip_and_length (a b : list bool) :
  length a = length b -> length (zip_and a b) = length a.
Proof.
  revert b; induction a as [|u a IH]; intros [|v b] H; simpl in *; try easy.
  f_equal; apply IH; lia.
Qed.

Lemma np_and_same (a b : list bool) :
  length a = length b -> np_and a b = Ok (zip_and a b).
Proof.
  intros H; unfold np_and.
  rewrite (proj2 (Nat.eqb_eq _ _) H); reflexivity.
Qed.

Lemma getitem_same {A : Type} (a : list A) (mask : list bool) :
  length a = length mask -> getitem a mask = Ok (bool_index a mask).
Proof.
  intros H; unfold getitem.
  rewrite (proj2 (Nat.eqb_eq _ _) H), orb_true_r; reflexivity.
Qed.

Lemma keep_passes2 (plim alim : limits) (p a : float) :
  isfinite p && isfinite a && float_ge p (fst plim) && float_le p (snd plim)
    && float_ge a (fst alim) && float_le a (snd alim)
  = passes2 plim alim (p, a).
Proof.
  unfold passes2, passes, in_windowb.
  destruct p, a; simpl;
    repeat match goal with
      | |- context [Rleb ?u ?v] => destruct (Rleb u v)
      end; reflexivity.
Qed.

Lemma passes2_finite (plim alim : limits) (p a : float) :
  passes2 plim alim (p, a) = true -> isfinite p = true /\ isfinite a = true.
Proof.
  unfold passes2, passes; simpl.
  destruct p, a; simpl; rewrite ?andb_false_r; try discriminate; auto.
Qed.

Lemma zip_chain_passes2 (plim alim : limits) (x theta : list float) :
  length x = length theta ->
  zip_and (zip_and (zip_and (zip_and
    (zip_and (map isfinite x) (map isfinite theta))
    (ge_arr x (fst plim))) (le_arr x (snd plim)))
    (ge_arr theta (fst alim))) (le_arr theta (snd alim))
  = map (passes2 plim alim) (combine x theta).
Proof.
  revert theta; induction x as [|p x IH]; intros [|a theta] H;
    simpl in *; try easy.
  rewrite keep_passes2. f_equal. apply IH; lia.
Qed.

(** Lengths of element-wise results. *)
Ltac solve_len :=
  rewrite ?length_map;
  lazymatch goal with
  | |- context [length (zip_and ?a ?b)] =>
      rewrite (zip_and_length a b); [solve_len | solve_len]
  | _ => first [reflexivity | congruence]
  end.

Lemma emittance_mask_eq (plim alim : limits) (x theta : list float) :
  length x = length theta ->
  emittance_mask plim alim x theta
  = Ok (map (passes2 plim alim) (combine x theta)).
Proof.
  intros H. unfold emittance_mask, ge_arr, le_arr.
  do 4 (rewrite np_and_same by solve_len; simpl).
  rewrite np_and_same by solve_len.
  f_equal. apply (zip_chain_passes2 plim alim x theta H).
Qed.

Lemma keep_passes (lim : limits) (p : float) :
  isfinite p && float_ge p (fst lim) && float_le p (snd lim) = passes lim p.
Proof. destruct p; reflexivity. Qed.

Lemma rms_mask_eq (lim : limits) (x : list float) :
  rms_mask lim x = Ok (map (passes lim) x).
Proof.
  unfold rms_mask, ge_arr, le_arr.
  rewrite np_and_same by solve_len. simpl.
  rewrite np_and_same by solve_len.
  f_equal. induction x as [|p x IH]; simpl; [reflexivity|].
  rewrite keep_passes. f_equal. exact IH.
Qed.

Lemma bool_index_map {A : Type} (f : A -> bool) (a : list A) :
  bool_index a (map f a) = filter f a.
Proof.
  induction a as [|v a IH]; simpl; [reflexivity|].
  destruct (f v); rewrite IH; reflexivity.
Qed.

Lemma bool_index_fst {A B : Type} (f : A * B -> bool) (a : list A) (b : list B) :
  length a = length b ->
  bool_index a (map f (combine a b)) = map fst (filter f (combine a b)).
Proof.
  revert b; induction a as [|u a IH]; intros [|v b] H; simpl in *; try easy.
  destruct (f (u, v)); simpl; rewrite IH by lia; reflexivity.
Qed.

Lemma bool_index_snd {A B : Type} (f : A * B -> bool) (a : list A) (b : list B) :
  length a = length b ->
  bool_index b (map f (combine a b)) = map snd (filter f (combine a b)).
Proof.
  revert b; induction a as [|u a IH]; intros [|v b] H; simpl in *; try easy.
  destruct (f (u, v)); simpl; rewrite IH by lia; reflexivity.
Qed.

Lemma values2_filter (plim alim : limits) (l : list (float * float)) :
  let s := filter (passes2 plim alim) l in
  values (map fst s) = map fst (values2 s)
  /\ values (map snd s) = map snd (values2 s)
  /\ length (values2 s) = length s.
Proof.
  induction l as [|[p a] l (IH1 & IH2 & IH3)]; simpl; [auto|].
  destruct (passes2 plim alim (p, a)) eqn:E; [|auto].
  unfold passes2 in E; simpl in E.
  destruct p, a; simpl in *; rewrite ?andb_false_r in E; try discriminate.
  rewrite IH1, IH2, IH3; auto.
Qed.

Lemma values_filter (lim : limits) (l : list float) :
  length (values (filter (passes lim) l)) = length (filter (passes lim) l).
Proof.
  induction l as [|p l IH]; simpl; [reflexivity|].
  destruct (passes lim p) eqn:E; [|exact IH].
  destruct p; simpl in *; try discriminate. now rewrite IH.
Qed.

(** The masked arrays hold finite numbers only, so that [values] reads
    them as reals and loses nothing. *)
Lemma values_inverse (l : list float) :
  Forall (fun v => isfinite v = true) l -> map Fin (values l) = l.
Proof.
  induction 1 as [|v l Hv _ IH]; [reflexivity|].
  destruct v; simpl in *; try discriminate. rewrite IH. reflexivity.
Qed.

Lemma masked_finite (lim : limits) (x : list float) :
  Forall (fun v => isfinite v = true) (filter (passes lim) x).
Proof.
  apply Forall_forall. intros v Hv. apply filter_In in Hv.
  destruct Hv as (_ & Hv). destruct v; simpl in *; try discriminate. reflexivity.
Qed.

Lemma masked2_finite (plim alim : limits) (l : list (float * float)) :
  Forall (fun v => isfinite v = true) (map fst (filter (passes2 plim alim) l))
  /\ Forall (fun v => isfinite v = true) (map snd (filter (passes2 plim alim) l)).
Proof.
  induction l as [|[p a] l (IH1 & IH2)]; simpl; [split; constructor|].
  destruct (passes2 plim alim (p, a)) eqn:E; [|auto].
  apply passes2_finite in E. destruct E as (Ep & Ea).
  split; constructor; assumption.
Qed.

(** The functions never leave the masked branch when the arrays of a
    sample pair have one length. *)
Lemma emittance_log_eq (plim alim : limits) (x theta : list float) :
  length x = length theta ->
  compute_emittance_and_twiss_log plim alim x theta
  = Ok (twiss_of (map fst (filter (passes2 plim alim) (combine x theta)))
                 (map snd (filter (passes2 plim alim) (combine x theta)))).
Proof.
  intros H. unfold compute_emittance_and_twiss_log.
  rewrite emittance_mask_eq by exact H. simpl.
  rewrite !getitem_same
    by (rewrite length_map, length_combine; lia). simpl.
  rewrite bool_index_fst, bool_index_snd by exact H. reflexivity.
Qed.

Lemma rms_log_eq (lim : limits) (x : list float) :
  compute_rms_size_log lim x = Ok (rms_of (filter (passes lim) x)).
Proof.
  unfold compute_rms_size_log. rewrite rms_mask_eq. simpl.
  rewrite getitem_same by (rewrite length_map; reflexivity). simpl.
  rewrite bool_index_map. reflexivity.
Qed.

(** ** Covariance terms *)

Lemma np_dot_shift (f g : R * R -> R) (mf mg : R) (s : list (R * R)) :
  np_dot (map (fun v => v - mf) (map f s)) (map (fun v => v - mg) (map g s))
  = total (map (fun pa => (f pa - mf) * (g pa - mg)) s).
Proof.
  induction s as [|pa s IH]; simpl; [reflexivity|].
  rewrite IH; reflexivity.
Qed.

Lemma np_dot_center (f g : R * R -> R) (s : list (R * R)) :
  np_dot (center (map f s)) (center (map g s)) = codev f g s.
Proof. unfold center, codev. apply np_dot_shift. Qed.

Lemma INR_pred (n : nat) :
  (1 <= n)%nat ->
  (if Rleb (INR n - INR 1) 0 then 0 else INR n - INR 1) = INR (n - 1).
Proof.
  intros H. rewrite minus_INR by exact H.
  pose proof (pos_INR (n - 1)) as P. rewrite minus_INR in P by exact H.
  unfold Rleb. destruct (Rle_dec (INR n - INR 1) 0); lra.
Qed.

Lemma cov_terms_eq (s : list (R * R)) :
  (1 <= length s)%nat ->
  cov_terms (map fst s) (map snd s) = (sigma_pp s, sigma_pa s, sigma_aa s).
Proof.
  intros H. unfold cov_terms, np_cov, item; simpl.
  rewrite !np_dot_center, length_map, INR_pred by exact H.
  unfold sigma_pp, sigma_pa, sigma_aa, Rdiv.
  rewrite !Rmult_1_l. reflexivity.
Qed.

Lemma total_squares_nonneg (F : R * R -> R) (s : list (R * R)) :
  0 <= total (map (fun pa => F pa * F pa) s).
Proof.
  induction s as [|pa s IH]; simpl; [lra|].
  pose proof (Rle_0_sqr (F pa)) as Hs; unfold Rsqr in Hs. lra.
Qed.

Lemma codev_diag_nonneg (f : R * R -> R) (s : list (R * R)) :
  0 <= codev f f s.
Proof.
  unfold codev.
  apply (total_squares_nonneg (fun pa => f pa - mean (map f s))).
Qed.

Lemma sigma_pp_nonneg (s : list (R * R)) : 0 <= sigma_pp s.
Proof.
  unfold sigma_pp, Rdiv. apply Rmult_le_pos.
  - apply codev_diag_nonneg.
  - destruct (length s - 1)%nat eqn:E.
    + simpl. rewrite Rinv_0. lra.
    + left. apply Rinv_0_lt_compat. apply lt_0_INR. lia.
Qed.

Lemma sigma_aa_nonneg (s : list (R * R)) : 0 <= sigma_aa s.
Proof.
  unfold sigma_aa, Rdiv. apply Rmult_le_pos.
  - apply codev_diag_nonneg.
  - destruct (length s - 1)%nat eqn:E.
    + simpl. rewrite Rinv_0. lra.
    + left. apply Rinv_0_lt_compat. apply lt_0_INR. lia.
Qed.

(** ** The closed form of the two results *)

Lemma twiss_of_short (x theta : list float) :
  (length x < 2)%nat -> twiss_of x theta = ((NaN, NaN, NaN, NaN), []).
Proof.
  intros H. unfold twiss_of.
  rewrite (proj2 (Nat.ltb_lt _ _) H). reflexivity.
Qed.

Lemma twiss_of_degenerate (x theta : list float) (sx2 sxt st2 : R) :
  (2 <= length x)%nat ->
  cov_terms (values x) (values theta) = (sx2, sxt, st2) ->
  sx2 * st2 - sxt * sxt <= 0 ->
  twiss_of x theta = ((NaN, NaN, NaN, NaN), []).
Proof.
  intros Hn Hc Hd. unfold twiss_of.
  rewrite (proj2 (Nat.ltb_ge _ _) Hn), Hc. unfold determinant.
  rewrite (proj2 (Rltb_false _ _)) by lra. reflexivity.
Qed.

Lemma twiss_of_regular (x theta : list float) (sx2 sxt st2 : R) :
  (2 <= length x)%nat ->
  cov_terms (values x) (values theta) = (sx2, sxt, st2) ->
  0 < sx2 * st2 - sxt * sxt ->
  let det := sx2 * st2 - sxt * sxt in
  twiss_of x theta
  = ((Fin (sqrt det), Fin (- sxt / sqrt det),
      Fin (sx2 / sqrt det), Fin (st2 / sqrt det)),
     [EvSqrt det; EvDiv (- sxt) (Fin (sqrt det));
      EvDiv sx2 (Fin (sqrt det)); EvDiv st2 (Fin (sqrt det))]).
Proof.
  intros Hn Hc Hd det. unfold twiss_of.
  rewrite (proj2 (Nat.ltb_ge _ _) Hn), Hc. unfold determinant.
  replace (sx2 * st2 - sxt ^ 2) with det by (unfold det; ring).
  assert (Hs : 0 < sqrt det) by (apply sqrt_lt_R0; exact Hd).
  rewrite (proj2 (Rltb_true 0 det)) by exact Hd.
  unfold np_sqrt, bind, ret, float_div, float_gt.
  rewrite (proj2 (Rltb_false det 0)) by (unfold det; lra).
  rewrite (proj2 (Rltb_true 0 (sqrt det))) by exact Hs.
  reflexivity.
Qed.

Lemma rms_of_empty : rms_of [] = (NaN, []).
Proof. reflexivity. Qed.

Lemma mean_squares_nonneg (m : R) (l : list R) :
  0 <= np_mean (map (fun v => (v - m) ^ 2) l).
Proof.
  unfold np_mean, Rdiv. apply Rmult_le_pos.
  - induction l as [|v l IH]; cbn [map np_sum fold_right]; [lra|].
    change (fold_right Rplus 0 ?a) with (np_sum a).
    pose proof (pow2_ge_0 (v - m)) as Hp. lra.
  - rewrite length_map. destruct l as [|v l].
    + simpl. rewrite Rinv_0. lra.
    + left. apply Rinv_0_lt_compat. apply lt_0_INR. simpl; lia.
Qed.

Lemma rms_of_nonempty (x : list float) :
  x <> [] ->
  let m2 := np_mean (map (fun v => (v - np_mean (values x)) ^ 2) (values x)) in
  rms_of x = (Fin (sqrt m2), [EvSqrt m2]).
Proof.
  intros H m2. unfold rms_of.
  destruct x as [|v x]; [contradiction|]. cbn [length Nat.eqb].
  unfold np_sqrt. fold m2.
  rewrite (proj2 (Rltb_false m2 0)) by apply mean_squares_nonneg.
  reflexivity.
Qed.

(** ** The functions against the specification's formulas *)

Lemma det_of_eq (s : list (R * R)) :
  det_of s = sigma_pp s * sigma_aa s - sigma_pa s ^ 2.
Proof. unfold det_of; ring. Qed.

Lemma twiss_of_spec (x theta : list float) (s : list (R * R)) :
  values x = map fst s -> values theta = map snd s -> length x = length s ->
  fst (twiss_of x theta) = twiss_spec s.
Proof.
  intros Hx Ht Hl. unfold twiss_spec. rewrite <- Hl.
  destruct (Nat.ltb (length x) 2) eqn:E.
  - rewrite twiss_of_short by (apply Nat.ltb_lt; exact E). reflexivity.
  - apply Nat.ltb_ge in E.
    assert (Hc : cov_terms (values x) (values theta)
                 = (sigma_pp s, sigma_pa s, sigma_aa s))
      by (rewrite Hx, Ht; apply cov_terms_eq; lia).
    destruct (Rltb 0 (det_of s)) eqn:D.
    + apply Rltb_true in D. unfold det_of in *.
      rewrite (twiss_of_regular x theta _ _ _ E Hc D). reflexivity.
    + apply Rltb_false in D. unfold det_of in *.
      rewrite (twiss_of_degenerate x theta _ _ _ E Hc D). reflexivity.
Qed.

Lemma emittance_refines (plim alim : limits) (x theta : list float) :
  length x = length theta ->
  compute_emittance_and_twiss plim alim x theta
  = Ok (twiss_spec (filtered2 plim alim x theta)).
Proof.
  intros H. unfold compute_emittance_and_twiss.
  rewrite emittance_log_eq by exact H. simpl. f_equal.
  destruct (values2_filter plim alim (combine x theta)) as (H1 & H2 & H3).
  apply twiss_of_spec; unfold filtered2.
  - exact H1.
  - exact H2.
  - rewrite length_map. symmetry. exact H3.
Qed.

Lemma np_and_empty (a b : list bool) :
  np_and a b = Ok [] -> a = [] \/ b = [].
Proof.
  unfold np_and. destruct (Nat.eqb (length a) (length b)) eqn:E.
  - destruct a as [|u a]; [auto|]. destruct b as [|v b]; [auto|]. discriminate.
  - destruct a as [|u [|u' a]]; [auto|..].
    + destruct b as [|v b]; [auto|]. discriminate.
    + destruct b as [|v [|v' b]]; [auto|discriminate|discriminate].
Qed.

Lemma emittance_mask_empty (plim alim : limits) (x theta : list float) :
  emittance_mask plim alim x theta = Ok [] -> x = [] \/ theta = [].
Proof.
  unfold emittance_mask, ge_arr, le_arr.
  destruct (np_and (map isfinite x) (map isfinite theta)) as [m1|e] eqn:E1;
    [|discriminate]. cbn [rbind].
  destruct (np_and m1 _) as [m2|e] eqn:E2; [|discriminate]. cbn [rbind].
  destruct (np_and m2 _) as [m3|e] eqn:E3; [|discriminate]. cbn [rbind].
  destruct (np_and m3 _) as [m4|e] eqn:E4; [|discriminate]. cbn [rbind].
  intros E5.
  assert (N : forall (A B : Type) (f : A -> B) (l : list A),
             map f l = [] -> l = [])
    by (intros A B f [|v l] H; [reflexivity|discriminate]).
  apply np_and_empty in E5. destruct E5 as [->|E5]; [|right; eauto].
  apply np_and_empty in E4. destruct E4 as [->|E4]; [|right; eauto].
  apply np_and_empty in E3. destruct E3 as [->|E3]; [|left; eauto].
  apply np_and_empty in E2. destruct E2 as [->|E2]; [|left; eauto].
  apply np_and_empty in E1. destruct E1 as [E1|E1]; eauto.
Qed.

(** A call that returns was made on arrays of one length, or on a pair
    with an empty array, whose mask is empty. *)
Lemma emittance_ok_length (plim alim : limits) (x theta : list float)
    (r : Log twiss) :
  compute_emittance_and_twiss_log plim alim x theta = Ok r ->
  length x = length theta
  \/ ((x = [] \/ theta = []) /\ fst r = (NaN, NaN, NaN, NaN)).
Proof.
  unfold compute_emittance_and_twiss_log, getitem.
  destruct (emittance_mask plim alim x theta) as [mask|e] eqn:M; simpl;
    [|discriminate].
  destruct (Nat.eqb (length mask) 0) eqn:E0; cbn [orb].
  - apply Nat.eqb_eq in E0. destruct mask; [|discriminate].
    simpl. intros H. injection H as <-. right.
    split; [apply (emittance_mask_empty _ _ _ _ M)|].
    destruct x; reflexivity.
  - destruct (Nat.eqb (length x) (length mask)) eqn:E1; simpl; [|discriminate].
    destruct (Nat.eqb (length theta) (length mask)) eqn:E2; simpl; [|discriminate].
    apply Nat.eqb_eq in E1, E2. intros _. left. congruence.
Qed.

Lemma combine_nil_r {A B : Type} (a : list A) : combine a (@nil B) = [].
Proof. destruct a; reflexivity. Qed.

Lemma emittance_ok_refines (plim alim : limits) (x theta : list float)
    (t : twiss) :
  compute_emittance_and_twiss plim alim x theta = Ok t ->
  (length x = length theta \/ x = [] \/ theta = [])
  /\ t = twiss_spec (filtered2 plim alim x theta).
Proof.
  intros H. unfold compute_emittance_and_twiss in H.
  destruct (compute_emittance_and_twiss_log plim alim x theta) as [r|e] eqn:E;
    [|discriminate].
  simpl in H. injection H as H.
  destruct (emittance_ok_length _ _ _ _ _ E) as [L|(Z & N)].
  - split; [left; exact L|].
    pose proof (emittance_refines plim alim x theta L) as R.
    unfold compute_emittance_and_twiss in R. rewrite E in R.
    simpl in R. injection R as R. congruence.
  - split; [right; exact Z|]. rewrite <- H, N.
    assert (F : filtered2 plim alim x theta = []).
    { unfold filtered2. destruct Z as [->| ->];
        [reflexivity | rewrite combine_nil_r; reflexivity]. }
    rewrite F. reflexivity.
Qed.

Lemma mean_squares_eq (l : list R) :
  np_mean (map (fun v => (v - np_mean l) ^ 2) l)
  = total (map (fun v => (v - mean l) * (v - mean l)) l) / INR (length l).
Proof.
  unfold np_mean at 1. rewrite length_map. f_equal.
  change (np_mean l) with (mean l). generalize (mean l) as m; intros m.
  unfold np_sum, total.
  induction l as [|v l IH]; cbn [map fold_right]; [reflexivity|].
  rewrite IH. ring.
Qed.

Lemma rms_refines (lim : limits) (x : list float) :
  compute_rms_size lim x = Ok (rms_spec (filtered lim x)).
Proof.
  unfold compute_rms_size. rewrite rms_log_eq. simpl. f_equal.
  unfold filtered.
  destruct (filter (passes lim) x) as [|v l] eqn:E.
  - reflexivity.
  - rewrite rms_of_nonempty by discriminate. cbn [fst].
    rewrite mean_squares_eq.
    pose proof (values_filter lim x) as Hl. rewrite E in Hl.
    destruct (values (v :: l)) as [|r l'] eqn:V.
    + simpl in Hl. discriminate.
    + reflexivity.
Qed.

(** ** Concrete samples *)

(** Evaluates the filter on closed arrays. *)
Ltac eval_filter :=
  unfold filtered2, filtered, passes2, passes, in_windowb;
  cbn [combine filter fst snd];
  decide_cmp;
  cbn [andb filter values values2 fst snd].

(** Evaluates the statistics of closed samples. *)
Ltac eval_stats :=
  unfold det_of, sigma_pp, sigma_pa, sigma_aa, codev, rms_population, mean, total;
  cbn [map fold_right length fst snd Nat.sub INR].

Lemma square_filtered :
  filtered2 pos_lim angle_lim_mrad square_x square_theta
  = [(-1, -1); (1, 1); (-1, 1); (1, -1)].
Proof. unfold square_x, square_theta, pos_lim, angle_lim_mrad. eval_filter. reflexivity. Qed.

Lemma square_sigmas :
  let s := [(-1, -1); (1, 1); (-1, 1); (1, -1)] in
  sigma_pp s = 4 / 3 /\ sigma_pa s = 0 /\ sigma_aa s = 4 / 3 /\ det_of s = 16 / 9.
Proof. cbv zeta. eval_stats. repeat split; field. Qed.

Lemma square_result :
  compute_emittance_and_twiss pos_lim angle_lim_mrad square_x square_theta
  = Ok (Fin (4 / 3), Fin 0, Fin 1, Fin 1).
Proof.
  rewrite emittance_refines by reflexivity. rewrite square_filtered.
  destruct square_sigmas as (Epp & Epa & Eaa & Ed).
  unfold twiss_spec. cbn [length Nat.ltb Nat.leb].
  rewrite Epp, Epa, Eaa, Ed.
  rewrite (proj2 (Rltb_true 0 (16 / 9))) by lra.
  replace (16 / 9) with ((4 / 3) * (4 / 3)) by field.
  rewrite sqrt_square by lra.
  repeat f_equal; field.
Qed.

Lemma square_rms : compute_rms_size pos_lim square_x = Ok (Fin 1).
Proof.
  rewrite rms_refines.
  assert (F : filtered pos_lim square_x = [-1; 1; -1; 1])
    by (unfold square_x, pos_lim; eval_filter; reflexivity).
  rewrite F. unfold rms_spec. f_equal. f_equal.
  eval_stats. transitivity (sqrt 1); [f_equal; field | apply sqrt_1].
Qed.

Lemma noisy_result :
  compute_emittance_and_twiss pos_lim angle_lim_mrad noisy_x noisy_theta
  = Ok (Fin (4 / 3), Fin 0, Fin 1, Fin 1).
Proof.
  rewrite emittance_refines by reflexivity.
  assert (F : filtered2 pos_lim angle_lim_mrad noisy_x noisy_theta
              = filtered2 pos_lim angle_lim_mrad square_x square_theta).
  { rewrite square_filtered.
    unfold noisy_x, noisy_theta, pos_lim, angle_lim_mrad.
    eval_filter. reflexivity. }
  rewrite F, <- emittance_refines by reflexivity. exact square_result.
Qed.

Lemma noisy_rms : compute_rms_size pos_lim noisy_x = Ok (Fin 1).
Proof.
  rewrite rms_refines.
  assert (F : filtered pos_lim noisy_x = filtered pos_lim square_x)
    by (unfold noisy_x, square_x, pos_lim; eval_filter; reflexivity).
  rewrite F, <- rms_refines. exact square_rms.
Qed.

Lemma rect_result :
  compute_emittance_and_twiss pos_lim angle_lim_mrad square_x rect_theta
  = Ok (Fin (8 / 3), Fin 0, Fin (1 / 2), Fin 2).
Proof.
  rewrite emittance_refines by reflexivity.
  assert (F : filtered2 pos_lim angle_lim_mrad square_x rect_theta
              = [(-1, -2); (1, 2); (-1, 2); (1, -2)])
    by (unfold square_x, rect_theta, pos_lim, angle_lim_mrad; eval_filter;
        reflexivity).
  rewrite F.
  assert (S : sigma_pp [(-1, -2); (1, 2); (-1, 2); (1, -2)] = 4 / 3
              /\ sigma_pa [(-1, -2); (1, 2); (-1, 2); (1, -2)] = 0
              /\ sigma_aa [(-1, -2); (1, 2); (-1, 2); (1, -2)] = 16 / 3
              /\ det_of [(-1, -2); (1, 2); (-1, 2); (1, -2)] = 64 / 9)
    by (eval_stats; repeat split; field).
  destruct S as (Epp & Epa & Eaa & Ed).
  unfold twiss_spec. cbn [length Nat.ltb Nat.leb].
  rewrite Epp, Epa, Eaa, Ed.
  rewrite (proj2 (Rltb_true 0 (64 / 9))) by lra.
  replace (64 / 9) with ((8 / 3) * (8 / 3)) by field.
  rewrite sqrt_square by lra.
  replace (- 0 / (8 / 3)) with 0 by field.
  replace (4 / 3 / (8 / 3)) with (1 / 2) by field.
  replace (16 / 3 / (8 / 3)) with 2 by field.
  reflexivity.
Qed.

Lemma ramp_filtered :
  filtered2 (0, 10) (0, 10) ramp ramp = [(1, 1); (2, 2); (3, 3); (4, 4); (5, 5)].
Proof. unfold ramp. eval_filter. reflexivity. Qed.

Lemma ramp_det : det_of [(1, 1); (2, 2); (3, 3); (4, 4); (5, 5)] = 0.
Proof. eval_stats. field. Qed.

(** ** Whatever the arithmetic *)

Lemma bool_index_count {A : Type} (a : list A) (mask : list bool) :
  length a = length mask ->
  length (bool_index a mask) = count_occ bool_dec mask true.
Proof.
  revert mask; induction a as [|v a IH]; intros [|b mask] H; simpl in *;
    try easy.
  destruct b; simpl; rewrite IH by lia; reflexivity.
Qed.

Lemma emittance_mask_in_length {D : Type} {dd : Doubles D}
    (plim alim : limits_in D) (x theta : list D) (mask : list bool) :
  length x = length theta ->
  emittance_mask_in plim alim x theta = Ok mask ->
  length mask = length x.
Proof.
  intros H. unfold emittance_mask_in.
  do 4 (rewrite np_and_same by solve_len; cbn [rbind]).
  rewrite np_and_same by solve_len.
  intros E. injection E as <-. solve_len.
Qed.

Lemma emittance_in_masked {D : Type} {dd : Doubles D} {to : TwissOps D}
    (plim alim : limits_in D) (x theta : list D) (mask : list bool) :
  length x = length theta ->
  emittance_mask_in plim alim x theta = Ok mask ->
  compute_emittance_and_twiss_in plim alim x theta
  = Ok (twiss_in (bool_index x mask) (bool_index theta mask)).
Proof.
  intros H M. pose proof (emittance_mask_in_length _ _ _ _ _ H M) as L.
  unfold compute_emittance_and_twiss_in. rewrite M. cbn [rbind].
  rewrite !getitem_same by congruence. reflexivity.
Qed.

Lemma zip_chain_kept {D : Type} (f g h : D -> bool) (x : list D) :
  zip_and (zip_and (map f x) (map g x)) (map h x)
  = map (fun v => f v && g v && h v) x.
Proof. induction x as [|v x IH]; simpl; [reflexivity|]. now rewrite IH. Qed.

Lemma rms_in_kept {D : Type} {dd : Doubles D} {so : SizeOps D}
    (lim : limits_in D) (x : list D) :
  compute_rms_size_in lim x
  = Ok (match kept_in lim x with
        | [] => d_nan
        | _ :: _ =>
            d_sqrt (np_mean_in
                      (map (fun v => d_square (d_sub v (np_mean_in (kept_in lim x))))
                         (kept_in lim x)))
        end).
Proof.
  unfold compute_rms_size_in, rms_mask_in.
  rewrite np_and_same by solve_len. cbn [rbind].
  rewrite np_and_same by solve_len. cbn [rbind].
  rewrite zip_chain_kept.
  rewrite getitem_same by (rewrite length_map; reflexivity). cbn [rbind].
  rewrite bool_index_map. fold (kept_in lim x).
  destruct (kept_in lim x); reflexivity.
Qed.

(** *** Exact arithmetic gives back the functions on reals *)

Lemma forallb_finite (l : list float) :
  Forall (fun v => isfinite v = true) l -> forallb isfinite l = true.
Proof. intros H. apply forallb_forall. apply Forall_forall. exact H. Qed.

Lemma exact_le_lo (lo : R) (v : float) : float_leb (Fin lo) v = float_ge v lo.
Proof. destruct v; reflexivity. Qed.

Lemma exact_le_hi (hi : R) (v : float) : float_leb v (Fin hi) = float_le v hi.
Proof. destruct v; reflexivity. Qed.

Lemma exact_mask_agrees (plim alim : limits) (x theta : list float) :
  emittance_mask_in (D := float) (Fin (fst plim), Fin (snd plim))
    (Fin (fst alim), Fin (snd alim)) x theta
  = emittance_mask plim alim x theta.
Proof.
  unfold emittance_mask_in, emittance_mask, ge_arr, le_arr.
  cbn [fst snd d_isfinite d_le exact_doubles].
  rewrite (map_ext _ _ (exact_le_lo (fst plim))).
  rewrite (map_ext _ _ (exact_le_hi (snd plim))).
  rewrite (map_ext _ _ (exact_le_lo (fst alim))).
  rewrite (map_ext _ _ (exact_le_hi (snd alim))).
  reflexivity.
Qed.

Lemma twiss_in_exact (x theta : list float) :
  Forall (fun v => isfinite v = true) x ->
  Forall (fun v => isfinite v = true) theta ->
  twiss_in (D := float) x theta = fst (twiss_of x theta).
Proof.
  intros Fx Ft. unfold twiss_in.
  destruct (Nat.ltb (length x) 2) eqn:E.
  - rewrite twiss_of_short by (apply Nat.ltb_lt; exact E). reflexivity.
  - apply Nat.ltb_ge in E.
    cbn [np_cov_in exact_twiss]. unfold exact_cov.
    rewrite (forallb_finite x Fx), (forallb_finite theta Ft). cbn [andb].
    destruct (cov_terms (values x) (values theta)) as [[a b] c] eqn:C.
    unfold det_in. cbn [d_lt d_zero d_sub d_mul d_pow2 d_sqrt d_div d_neg d_nan
      exact_doubles exact_twiss float_sub float_times float_ltb float_opp].
    destruct (Rlt_dec 0 (a * c - b * b)) as [P|P].
    + rewrite (twiss_of_regular x theta a b c E C P). cbn [fst].
      pose proof (sqrt_lt_R0 _ P) as Hs.
      rewrite (proj2 (Rltb_true 0 (a * c - b * b)) P).
      cbn [float_sqrt].
      rewrite (proj2 (Rltb_false (a * c - b * b) 0)) by lra.
      cbn [float_ltb float_quot].
      rewrite (proj2 (Rltb_true 0 (sqrt (a * c - b * b))) Hs).
      reflexivity.
    + apply Rnot_lt_le in P.
      rewrite (twiss_of_degenerate x theta a b c E C P). cbn [fst].
      rewrite (proj2 (Rltb_false 0 (a * c - b * b)) P).
      reflexivity.
Qed.

(** On arrays of one length, [compute_emittance_and_twiss_in] with exact
    arithmetic is [compute_emittance_and_twiss]. *)
Lemma exact_emittance_agrees (plim alim : limits) (x theta : list float) :
  length x = length theta ->
  compute_emittance_and_twiss_in (D := float) (Fin (fst plim), Fin (snd plim))
    (Fin (fst alim), Fin (snd alim)) x theta
  = compute_emittance_and_twiss plim alim x theta.
Proof.
  intros H.
  pose proof (emittance_mask_eq plim alim x theta H) as M.
  rewrite <- exact_mask_agrees in M.
  rewrite (emittance_in_masked _ _ x theta _ H M).
  unfold compute_emittance_and_twiss.
  rewrite emittance_log_eq by exact H. cbn [result_map].
  rewrite bool_index_fst, bool_index_snd by exact H.
  destruct (masked2_finite plim alim (combine x theta)) as (Fx & Ft).
  rewrite twiss_in_exact by assumption. reflexivity.
Qed.

Lemma exact_kept_agrees (lim : limits) (x : list float) :
  kept_in (D := float) (Fin (fst lim), Fin (snd lim)) x = filter (passes lim) x.
Proof.
  unfold kept_in. apply filter_ext. intros v.
  cbn [fst snd d_isfinite d_le exact_doubles].
  rewrite exact_le_lo, exact_le_hi. apply keep_passes.
Qed.

(** [compute_rms_size_in] with exact arithmetic is [compute_rms_size]. *)
Lemma exact_rms_agrees (lim : limits) (x : list float) :
  compute_rms_size_in (D := float) (Fin (fst lim), Fin (snd lim)) x
  = compute_rms_size lim x.
Proof.
  rewrite rms_in_kept, exact_kept_agrees.
  unfold compute_rms_size. rewrite rms_log_eq. cbn [result_map]. f_equal.
  pose proof (masked_finite lim x) as F.
  destruct (filter (passes lim) x) as [|v l] eqn:E; [reflexivity|].
  rewrite rms_of_nonempty by discriminate. cbn [fst].
  set (k := v :: l) in *.
  assert (V : map Fin (values k) = k) by (apply values_inverse; exact F).
  cbn [np_mean_in d_square d_sub d_sqrt exact_size exact_doubles].
  assert (M : exact_mean k = Fin (np_mean (values k))).
  { unfold exact_mean, k. fold k. rewrite (forallb_finite k F). reflexivity. }
  rewrite M.
  assert (Q : map (fun u => float_times (float_sub u (Fin (np_mean (values k))))
                               (float_sub u (Fin (np_mean (values k))))) k
              = map Fin (map (fun r => (r - np_mean (values k)) ^ 2) (values k))).
  { rewrite <- V at 1. rewrite !map_map. apply map_ext. intros r.
    simpl. f_equal. ring. }
  rewrite Q.
  set (sq := map (fun r => (r - np_mean (values k)) ^ 2) (values k)).
  assert (Hsq : sq <> []).
  { unfold sq. intros Z. apply map_eq_nil in Z. rewrite Z in V.
    unfold k in V. discriminate. }
  assert (M2 : exact_mean (map Fin sq) = Fin (np_mean sq)).
  { unfold exact_mean. destruct sq as [|q sq']; [contradiction|].
    cbn [map].
    assert (Fq : forallb isfinite (Fin q :: map Fin sq') = true).
    { apply forallb_forall. intros w Hw. destruct Hw as [<-|Hw]; [reflexivity|].
      apply in_map_iff in Hw. destruct Hw as (r & <- & _). reflexivity. }
    rewrite Fq.
    assert (Vq : values (Fin q :: map Fin sq') = q :: sq').
    { simpl. f_equal. clear. induction sq' as [|r l IH]; simpl; [reflexivity|].
      now rewrite IH. }
    rewrite Vq. reflexivity. }
  rewrite M2. cbn [float_sqrt].
  rewrite (proj2 (Rltb_false (np_mean sq) 0))
    by (apply mean_squares_nonneg).
  reflexivity.
Qed.

(** ** The specification's properties *)

(** C1. For a sample pair whose filtered length is at least 2, whatever
    the arithmetic of the doubles, the emittance returned by
    [compute_emittance_and_twiss] is the square root of the determinant
    [sig_x2 * sig_t2 - sig_xt ** 2] that line 49 computes from the
    covariance of the filtered samples when that determinant is above
    zero, and not-a-number when it is not.  For position = angle =
    [1,2,3,4,5] with bounds [0,10], where every intermediate value is a
    small dyadic number that doubles hold exactly, the determinant is
    exactly zero and the emittance is not-a-number. *)
Theorem emittance_by_determinant :
  (forall (D : Type) (dd : Doubles D) (to : TwissOps D)
          (plim alim : limits_in D) (x theta : list D) (mask : list bool)
          (sig_x2 sig_xt sig_t2 : D),
      length x = length theta ->
      emittance_mask_in plim alim x theta = Ok mask ->
      (2 <= count_occ bool_dec mask true)%nat ->
      np_cov_in (bool_index x mask) (bool_index theta mask)
      = (sig_x2, sig_xt, sig_t2) ->
      let det := det_in sig_x2 sig_xt sig_t2 in
      (d_lt d_zero det = true ->
       result_map first_of (compute_emittance_and_twiss_in plim alim x theta)
       = Ok (d_sqrt det))
      /\ (d_lt d_zero det = false ->
          result_map first_of (compute_emittance_and_twiss_in plim alim x theta)
          = Ok d_nan))
  /\ det_of (filtered2 (0, 10) (0, 10) ramp ramp) = 0
  /\ result_map emittance_of (compute_emittance_and_twiss (0, 10) (0, 10) ramp ramp)
     = Ok NaN.
Proof.
  split.
  - intros D dd to plim alim x theta mask sx2 sxt st2 Hl Hm Hn Hc det.
    rewrite (emittance_in_masked plim alim x theta mask Hl Hm).
    pose proof (emittance_mask_in_length _ _ _ _ _ Hl Hm) as L.
    unfold twiss_in.
    rewrite (proj2 (Nat.ltb_ge _ _))
      by (rewrite bool_index_count by congruence; exact Hn).
    rewrite Hc. fold det.
    split; intros Hd; rewrite Hd; reflexivity.
  - assert (D : det_of (filtered2 (0, 10) (0, 10) ramp ramp) = 0)
      by (rewrite ramp_filtered; exact ramp_det).
    split; [exact D|].
    rewrite emittance_refines by reflexivity. unfold twiss_spec.
    rewrite ramp_filtered in *. cbn [length Nat.ltb Nat.leb].
    rewrite (proj2 (Rltb_false 0 _)) by lra. reflexivity.
Qed.

Lemma square_mask_in :
  emittance_mask_in (D := float) (Fin (-5), Fin 5) (Fin (-5), Fin 5)
    square_x square_theta
  = Ok [true; true; true; true].
Proof.
  unfold emittance_mask_in, square_x, square_theta.
  cbn [map fst snd d_isfinite d_le exact_doubles isfinite float_leb].
  decide_cmp. reflexivity.
Qed.

Lemma square_cov_in :
  np_cov_in (D := float) square_x square_theta = (Fin (4 / 3), Fin 0, Fin (4 / 3)).
Proof.
  cbn [np_cov_in exact_twiss]. unfold exact_cov, square_x, square_theta.
  cbn [forallb isfinite andb].
  change (cov_terms _ _)
    with (cov_terms (map fst [(-1, -1); (1, 1); (-1, 1); (1, -1)])
            (map snd [(-1, -1); (1, 1); (-1, 1); (1, -1)])).
  rewrite cov_terms_eq by (simpl; lia).
  destruct square_sigmas as (-> & -> & -> & _). reflexivity.
Qed.

Lemma emittance_by_determinant_witness :
  result_map first_of
    (compute_emittance_and_twiss_in (D := float) (Fin (-5), Fin 5) (Fin (-5), Fin 5)
       square_x square_theta)
  = Ok (d_sqrt (det_in (Fin (4 / 3)) (Fin 0) (Fin (4 / 3)))).
Proof.
  apply (proj1 (proj1 emittance_by_determinant float exact_doubles exact_twiss
                  (Fin (-5), Fin 5) (Fin (-5), Fin 5) square_x square_theta
                  [true; true; true; true] (Fin (4 / 3)) (Fin 0) (Fin (4 / 3))
                  eq_refl square_mask_in (le_S _ _ (le_S _ _ (le_n 2)))
                  square_cov_in)).
  unfold det_in. cbn [d_lt d_zero d_sub d_mul d_pow2 exact_doubles exact_twiss
    float_sub float_times float_ltb].
  apply Rltb_true. lra.
Defined.

Lemma count_true_map {A : Type} (f : A -> bool) (l : list A) :
  count_occ bool_dec (map f l) true = length (filter f l).
Proof.
  induction l as [|v l IH]; simpl; [reflexivity|].
  destruct (f v); simpl; rewrite IH; reflexivity.
Qed.

Lemma mask_count (plim alim : limits) (x theta : list float) (mask : list bool) :
  length x = length theta ->
  emittance_mask plim alim x theta = Ok mask ->
  count_occ bool_dec mask true = length (filtered2 plim alim x theta).
Proof.
  intros H E. rewrite emittance_mask_eq in E by exact H.
  injection E as <-. rewrite count_true_map. unfold filtered2.
  destruct (values2_filter plim alim (combine x theta)) as (_ & _ & H3).
  symmetry. exact H3.
Qed.

(** C3. When fewer than 2 entries of the filter mask of a sample pair
    are true, [compute_emittance_and_twiss] returns not-a-number for the
    emittance, alpha, beta and gamma. *)
Theorem too_few_samples_undefined (plim alim : limits) (x theta : list float)
    (mask : list bool) :
  length x = length theta ->
  emittance_mask plim alim x theta = Ok mask ->
  (count_occ bool_dec mask true < 2)%nat ->
  compute_emittance_and_twiss plim alim x theta = Ok (NaN, NaN, NaN, NaN).
Proof.
  intros Hl Hm Hn. rewrite (mask_count plim alim x theta mask Hl Hm) in Hn.
  rewrite emittance_refines by exact Hl.
  unfold twiss_spec. rewrite (proj2 (Nat.ltb_lt _ _) Hn). reflexivity.
Qed.

Lemma lone_mask :
  emittance_mask pos_lim angle_lim_mrad lone_x lone_theta = Ok [true; false].
Proof.
  rewrite emittance_mask_eq by reflexivity.
  unfold lone_x, lone_theta, pos_lim, angle_lim_mrad, passes2, passes, in_windowb.
  cbn [combine map fst snd]. decide_cmp. reflexivity.
Qed.

Lemma too_few_samples_undefined_witness :
  compute_emittance_and_twiss pos_lim angle_lim_mrad lone_x lone_theta
  = Ok (NaN, NaN, NaN, NaN).
Proof.
  apply (too_few_samples_undefined pos_lim angle_lim_mrad lone_x lone_theta
           [true; false]).
  - reflexivity.
  - exact lone_mask.
  - simpl. lia.
Defined.

(** C4. In every result of [compute_emittance_and_twiss]: when the
    emittance is not-a-number so are alpha, beta and gamma; when the
    emittance is a positive number, alpha is minus the position-angle
    covariance over the emittance, beta the position variance over the
    emittance, and gamma the angle variance over the emittance. *)
Theorem twiss_follow_emittance (plim alim : limits) (x theta : list float)
    (eps alpha beta gamma : float) :
  compute_emittance_and_twiss plim alim x theta = Ok (eps, alpha, beta, gamma) ->
  let s := filtered2 plim alim x theta in
  (eps = NaN -> alpha = NaN /\ beta = NaN /\ gamma = NaN)
  /\ (forall e : R, eps = Fin e -> 0 < e ->
      alpha = Fin (- sigma_pa s / e)
      /\ beta = Fin (sigma_pp s / e)
      /\ gamma = Fin (sigma_aa s / e)).
Proof.
  intros H s. apply emittance_ok_refines in H. destruct H as (_ & H).
  fold s in H. unfold twiss_spec in H.
  destruct (Nat.ltb (length s) 2).
  - injection H as -> -> -> ->. split; [auto|]. intros e E; discriminate.
  - destruct (Rltb 0 (det_of s)).
    + injection H as -> -> -> ->. split; [discriminate|].
      intros e E _. injection E as <-. auto.
    + injection H as -> -> -> ->. split; [auto|]. intros e E; discriminate.
Qed.

Lemma twiss_follow_emittance_witness :
  let s := filtered2 pos_lim angle_lim_mrad square_x square_theta in
  compute_emittance_and_twiss pos_lim angle_lim_mrad square_x square_theta
  = Ok (Fin (4 / 3), Fin 0, Fin 1, Fin 1)
  /\ Fin 0 = Fin (- sigma_pa s / (4 / 3))
  /\ Fin 1 = Fin (sigma_pp s / (4 / 3))
  /\ Fin 1 = Fin (sigma_aa s / (4 / 3)).
Proof.
  intros s. split; [exact square_result|].
  apply (proj2 (twiss_follow_emittance pos_lim angle_lim_mrad square_x square_theta
                  (Fin (4 / 3)) (Fin 0) (Fin 1) (Fin 1) square_result)
           (4 / 3) eq_refl).
  lra.
Defined.

Lemma triple_filtered : filtered (-1 / 2, 1 / 2) triple = [0].
Proof. unfold triple. eval_filter. reflexivity. Qed.

Lemma total_const (v : R) (l : list R) :
  (forall u, In u l -> u = v) -> total l = INR (length l) * v.
Proof.
  induction l as [|w l IH]; intros H.
  - simpl. ring.
  - cbn [total fold_right]. change (fold_right Rplus 0 l) with (total l).
    rewrite IH by (intros u Hu; apply H; right; exact Hu).
    rewrite (H w) by (left; reflexivity).
    cbn [length]. rewrite S_INR. ring.
Qed.

Lemma rms_population_const (v : R) (l : list R) :
  l <> [] -> (forall u, In u l -> u = v) -> rms_population l = 0.
Proof.
  intros Hne H. unfold rms_population.
  assert (Hn : INR (length l) <> 0).
  { destruct l; [contradiction|]. apply not_0_INR. discriminate. }
  assert (Hm : mean l = v).
  { unfold mean. rewrite (total_const v l H). field. exact Hn. }
  rewrite Hm.
  assert (Hz : total (map (fun u => (u - v) * (u - v)) l) = 0).
  { clear Hne Hn Hm. induction l as [|w l IH]; [reflexivity|].
    cbn [map total fold_right].
    change (fold_right Rplus 0 ?a) with (total a).
    rewrite IH by (intros u Hu; apply H; right; exact Hu).
    rewrite (H w) by (left; reflexivity). ring. }
  rewrite Hz. unfold Rdiv. rewrite Rmult_0_l. apply sqrt_0.
Qed.

Lemma triple_result : compute_rms_size (-1 / 2, 1 / 2) triple = Ok (Fin 0).
Proof.
  rewrite rms_refines, triple_filtered. unfold rms_spec.
  rewrite (rms_population_const 0 [0]); [reflexivity|discriminate|].
  intros u [<-|[]]; reflexivity.
Qed.

(** C9. Outputs that are not not-a-number are numbers with the right
    sign: the emittance is strictly positive, beta and gamma are not
    negative, and neither is the result of [compute_rms_size]. *)
Theorem defined_outputs_have_sign :
  (forall (plim alim : limits) (x theta : list float) (eps alpha beta gamma : float),
      compute_emittance_and_twiss plim alim x theta = Ok (eps, alpha, beta, gamma) ->
      (eps <> NaN -> exists e, eps = Fin e /\ 0 < e)
      /\ (beta <> NaN -> exists b, beta = Fin b /\ 0 <= b)
      /\ (gamma <> NaN -> exists g, gamma = Fin g /\ 0 <= g))
  /\ (forall (lim : limits) (x : list float) (r : float),
        compute_rms_size lim x = Ok r ->
        r <> NaN -> exists v, r = Fin v /\ 0 <= v).
Proof.
  split.
  - intros plim alim x theta eps alpha beta gamma H.
    apply emittance_ok_refines in H. destruct H as (_ & H).
    set (s := filtered2 plim alim x theta) in H. unfold twiss_spec in H.
    destruct (Nat.ltb (length s) 2);
      [injection H as -> -> -> ->; repeat split; intros N; now elim N|].
    destruct (Rltb 0 (det_of s)) eqn:D;
      [|injection H as -> -> -> ->; repeat split; intros N; now elim N].
    apply Rltb_true in D.
    assert (Hs : 0 < sqrt (det_of s)) by (apply sqrt_lt_R0; exact D).
    injection H as -> -> -> ->. repeat split; intros _.
    + exists (sqrt (det_of s)). auto.
    + exists (sigma_pp s / sqrt (det_of s)). split; [reflexivity|].
      apply Rmult_le_pos; [apply sigma_pp_nonneg|].
      left. apply Rinv_0_lt_compat. exact Hs.
    + exists (sigma_aa s / sqrt (det_of s)). split; [reflexivity|].
      apply Rmult_le_pos; [apply sigma_aa_nonneg|].
      left. apply Rinv_0_lt_compat. exact Hs.
  - intros lim x r H N. rewrite rms_refines in H. injection H as <-.
    destruct (filtered lim x) as [|v l] eqn:E; simpl in *; [now elim N|].
    exists (rms_population (v :: l)). split; [reflexivity|].
    unfold rms_population. apply sqrt_pos.
Qed.

Lemma defined_outputs_have_sign_witness :
  ((Fin (4 / 3) <> NaN -> exists e, Fin (4 / 3) = Fin e /\ 0 < e)
   /\ (Fin 1 <> NaN -> exists b, Fin 1 = Fin b /\ 0 <= b)
   /\ (Fin 1 <> NaN -> exists g, Fin 1 = Fin g /\ 0 <= g))
  /\ exists v, Fin 0 = Fin v /\ 0 <= v.
Proof.
  split.
  - exact (proj1 defined_outputs_have_sign pos_lim angle_lim_mrad
             square_x square_theta _ _ _ _ square_result).
  - apply (proj2 defined_outputs_have_sign (-1 / 2, 1 / 2) triple (Fin 0) triple_result).
    discriminate.
Defined.

(** C7. [compute_rms_size] always returns, and it returns not-a-number
    exactly when no position is finite and inside the window. *)
Theorem rms_undefined_iff_empty (lim : limits) (x : list float) :
  (exists r, compute_rms_size lim x = Ok r)
  /\ (compute_rms_size lim x = Ok NaN <-> filtered lim x = []).
Proof.
  rewrite rms_refines. split; [eexists; reflexivity|].
  destruct (filtered lim x) as [|v l]; simpl.
  - split; reflexivity.
  - split; intros H; discriminate.
Qed.

Lemma flat_filtered : filtered pos_lim flat = [2; 2; 2].
Proof. unfold flat, pos_lim. eval_filter. reflexivity. Qed.

Lemma float_eqb_fin_r (a : float) (v : R) :
  float_eqb a (Fin v) = true <-> a = Fin v.
Proof.
  unfold float_eqb. split.
  - intros H. apply andb_true_iff in H. destruct H as (H1 & H2).
    destruct a as [u| | |]; simpl in *; try discriminate.
    apply Rleb_true in H1, H2. f_equal. lra.
  - intros ->. simpl. rewrite (proj2 (Rleb_true v v)) by lra. reflexivity.
Qed.

Lemma float_eqb_fin_l (u : R) (b : float) :
  float_eqb (Fin u) b = true <-> b = Fin u.
Proof.
  unfold float_eqb. rewrite andb_comm. apply float_eqb_fin_r.
Qed.

Lemma np_mean_zeros (l : list R) :
  Forall (fun q => q = 0) l -> np_mean l = 0.
Proof.
  intros H. unfold np_mean.
  assert (S : np_sum l = 0).
  { unfold np_sum. induction H as [|q l Hq _ IH]; simpl; [reflexivity|].
    rewrite Hq, IH. ring. }
  rewrite S. unfold Rdiv. ring.
Qed.

Lemma zeros_finite (l : list float) :
  Forall (fun q => float_eqb q (Fin 0) = true) l ->
  forallb isfinite l = true /\ Forall (fun q => q = 0) (values l).
Proof.
  induction 1 as [|q l Hq _ (I1 & I2)]; [split; [reflexivity|constructor]|].
  apply float_eqb_fin_r in Hq. subst q. simpl.
  split; [exact I1|]. constructor; [reflexivity|exact I2].
Qed.

(** Exact arithmetic obeys the laws of zero. *)
Lemma exact_zero_laws : zero_laws float.
Proof.
  unfold zero_laws. cbn [d_isfinite d_eq d_sub d_zero d_sqrt d_square
    np_mean_in exact_doubles exact_size].
  split; [|split; [|split; [|split]]].
  - intros u m F E. destruct u as [a| | |]; simpl in F; try discriminate.
    apply float_eqb_fin_l in E. subst m.
    apply float_eqb_fin_r. simpl. f_equal. ring.
  - intros d E. apply float_eqb_fin_r in E. subst d.
    apply float_eqb_fin_r. simpl. f_equal. ring.
  - intros l Hne H. apply float_eqb_fin_r.
    destruct (zeros_finite l H) as (F1 & F2). unfold exact_mean.
    destruct l as [|q l]; [contradiction|].
    rewrite F1, (np_mean_zeros _ F2). reflexivity.
  - intros m E. apply float_eqb_fin_r in E. subst m.
    apply float_eqb_fin_r. simpl.
    rewrite (proj2 (Rltb_false 0 0)) by lra. rewrite sqrt_0. reflexivity.
  - intros v F. destruct v as [a| | |]; simpl in F; try discriminate.
    apply float_eqb_fin_l.
    unfold exact_mean. cbn [forallb isfinite andb values].
    unfold np_mean, np_sum. simpl. f_equal. field.
Qed.

Lemma kept_in_finite {D : Type} {dd : Doubles D} (lim : limits_in D) (x : list D) :
  Forall (fun v => d_isfinite v = true) (kept_in lim x).
Proof.
  apply Forall_forall. intros v Hv. unfold kept_in in Hv.
  apply filter_In in Hv. destruct Hv as (_ & Hv).
  apply andb_true_iff in Hv. destruct Hv as (Hv & _).
  apply andb_true_iff in Hv. tauto.
Qed.

(** C5, as the code has it.  Whatever the arithmetic of the doubles, as
    long as it obeys the laws of zero, [compute_rms_size] returns 0 when at
    least one position passes the filter and every position that passes
    equals the mean that [np.mean] returns for them, as it does when
    exactly one position passes.  For positions [-1, 0, 1] with bounds
    [-0.5, 0.5] only 0 passes and the result in binary64 is 0. *)
Theorem rms_zero_when_mean_exact :
  (forall (D : Type) (dd : Doubles D) (so : SizeOps D)
          (lim : limits_in D) (x : list D),
      zero_laws D ->
      (kept_in lim x <> []
       /\ Forall (fun u => d_eq u (np_mean_in (kept_in lim x)) = true)
            (kept_in lim x))
      \/ (exists v, kept_in lim x = [v]) ->
      exists r, compute_rms_size_in lim x = Ok r /\ d_eq r d_zero = true)
  /\ compute_rms_size_in (D := b64) (-0.5, 0.5)%float triple_b64 = Ok 0%float.
Proof.
  split; [|vm_compute; reflexivity].
  intros D dd so lim x (L1 & L2 & L3 & L4 & L5) H.
  pose proof (kept_in_finite lim x) as F.
  assert (A : kept_in lim x <> []
              /\ Forall (fun u => d_eq u (np_mean_in (kept_in lim x)) = true)
                   (kept_in lim x)).
  { destruct H as [H|(v & E)]; [exact H|].
    rewrite E in *. split; [discriminate|].
    constructor; [|constructor]. apply L5.
    apply (Forall_inv F). }
  destruct A as (Hne & Hm).
  rewrite rms_in_kept.
  destruct (kept_in lim x) as [|v l] eqn:E; [contradiction|].
  eexists. split; [reflexivity|].
  apply L4. apply L3.
  - discriminate.
  - apply Forall_map. rewrite Forall_forall in *.
    intros u Hu. apply L2. apply L1; auto.
Qed.

Lemma flat_kept_in :
  kept_in (D := float) (Fin (-5), Fin 5) flat = flat.
Proof.
  unfold kept_in, flat. cbn [filter fst snd d_isfinite d_le exact_doubles
    isfinite float_leb]. decide_cmp. reflexivity.
Qed.

Lemma rms_zero_when_mean_exact_witness :
  exists r,
    compute_rms_size_in (D := float) (Fin (-5), Fin 5) flat = Ok r
    /\ d_eq r d_zero = true.
Proof.
  apply (proj1 rms_zero_when_mean_exact float exact_doubles exact_size
           (Fin (-5), Fin 5) flat exact_zero_laws).
  left. rewrite flat_kept_in. split; [discriminate|].
  assert (M : np_mean_in (D := float) flat = Fin 2).
  { cbn [np_mean_in exact_size]. unfold exact_mean, flat.
    cbn [forallb isfinite andb values]. f_equal.
    unfold np_mean, np_sum. simpl. field. }
  rewrite M. repeat constructor; apply float_eqb_fin_r; reflexivity.
Defined.

(** C5 as stated fails on doubles: the three positions of [tenths] are
    equal and all pass the filter, their binary64 mean is one unit in the
    last place above them, and [compute_rms_size] returns 2 ^ -56, about
    1.39e-17, not 0. *)
Lemma rms_of_three_tenths :
  (forall u v, In u tenths -> In v tenths -> u = v)
  /\ kept_in (D := b64) (-5, 5)%float tenths = tenths
  /\ compute_rms_size_in (D := b64) (-5, 5)%float tenths = Ok 0x1p-56%float
  /\ d_eq (D := b64) 0x1p-56%float d_zero = false.
Proof.
  split; [|split; [|split]]; try (vm_compute; reflexivity).
  unfold tenths. simpl. intros u v Hu Hv.
  repeat match goal with
    | H : _ \/ _ |- _ => destruct H as [H|H]
    | H : False |- _ => destruct H
    end; congruence.
Qed.

(** ** The mask, index by index *)

Lemma nth_map_passes {A : Type} (f : A -> bool) (l : list A) (i : nat) :
  nth i (map f l) false = true <-> exists v, nth_error l i = Some v /\ f v = true.
Proof.
  revert i; induction l as [|w l IH]; intros [|i]; simpl.
  - split; [discriminate | intros (v & E & _); discriminate].
  - split; [discriminate | intros (v & E & _); discriminate].
  - split.
    + intros H; exists w; auto.
    + intros (v & E & H); injection E as ->; exact H.
  - apply IH.
Qed.

Lemma nth_error_combine {A B : Type} (a : list A) (b : list B) (i : nat)
    (u : A) (v : B) :
  nth_error (combine a b) i = Some (u, v)
  <-> nth_error a i = Some u /\ nth_error b i = Some v.
Proof.
  revert b i; induction a as [|u' a IH]; intros [|v' b] [|i]; simpl;
    try (split; [discriminate | intros (E1 & E2); discriminate]).
  - split.
    + intros E; injection E as -> ->; auto.
    + intros (E1 & E2); injection E1 as ->; injection E2 as ->; reflexivity.
  - apply IH.
Qed.

Lemma passes2_spec (plim alim : limits) (u v : float) :
  passes2 plim alim (u, v) = true
  <-> exists p a, u = Fin p /\ v = Fin a /\ in_window plim p /\ in_window alim a.
Proof.
  unfold passes2; simpl. rewrite andb_true_iff, !passes_spec. split.
  - intros ((p & -> & Hp) & (a & -> & Ha)). exists p, a; auto.
  - intros (p & a & -> & -> & Hp & Ha). split; eexists; eauto.
Qed.

(** C6. The mask of [compute_emittance_and_twiss] is as long as the
    arrays and is true at exactly the indices where the position and the
    angle are both finite, the position lies in the closed position window
    and the angle in the closed angle window.  A sample on a bound is
    kept; a sample with a non-finite coordinate is dropped whatever the
    bounds. *)
Theorem mask_selects_window (plim alim : limits) (x theta : list float) :
  length x = length theta ->
  exists mask,
    emittance_mask plim alim x theta = Ok mask
    /\ length mask = length x
    /\ (forall i,
          nth i mask false = true
          <-> exists p a,
              nth_error x i = Some (Fin p) /\ nth_error theta i = Some (Fin a)
              /\ fst plim <= p <= snd plim /\ fst alim <= a <= snd alim)
    /\ (forall i u v,
          nth_error x i = Some u -> nth_error theta i = Some v ->
          isfinite u && isfinite v = false -> nth i mask false = false).
Proof.
  intros H. exists (map (passes2 plim alim) (combine x theta)).
  split; [apply emittance_mask_eq; exact H|].
  split; [rewrite length_map, length_combine; lia|].
  assert (C : forall i,
          nth i (map (passes2 plim alim) (combine x theta)) false = true
          <-> exists p a,
              nth_error x i = Some (Fin p) /\ nth_error theta i = Some (Fin a)
              /\ fst plim <= p <= snd plim /\ fst alim <= a <= snd alim).
  { intros i. rewrite nth_map_passes. split.
    - intros ([u v] & E & P). apply nth_error_combine in E.
      apply passes2_spec in P. destruct P as (p & a & -> & -> & Hp & Ha).
      exists p, a. tauto.
    - intros (p & a & Ex & Et & Hp & Ha). exists (Fin p, Fin a). split.
      + apply nth_error_combine; auto.
      + apply passes2_spec. exists p, a; auto. }
  split; [exact C|].
  intros i u v Eu Ev F.
  destruct (nth i (map (passes2 plim alim) (combine x theta)) false) eqn:N;
    [|reflexivity].
  apply C in N. destruct N as (p & a & Ex & Et & _).
  rewrite Eu in Ex; rewrite Ev in Et.
  injection Ex as ->; injection Et as ->. discriminate.
Qed.

Lemma mask_selects_window_witness :
  exists mask,
    emittance_mask pos_lim angle_lim_mrad edge_x edge_theta = Ok mask
    /\ length mask = length edge_x
    /\ (forall i,
          nth i mask false = true
          <-> exists p a,
              nth_error edge_x i = Some (Fin p)
              /\ nth_error edge_theta i = Some (Fin a)
              /\ fst pos_lim <= p <= snd pos_lim
              /\ fst angle_lim_mrad <= a <= snd angle_lim_mrad)
    /\ (forall i u v,
          nth_error edge_x i = Some u -> nth_error edge_theta i = Some v ->
          isfinite u && isfinite v = false -> nth i mask false = false).
Proof.
  apply (mask_selects_window pos_lim angle_lim_mrad edge_x edge_theta).
  reflexivity.
Defined.

Lemma edge_mask :
  emittance_mask pos_lim angle_lim_mrad edge_x edge_theta = Ok [true; false; false].
Proof.
  rewrite emittance_mask_eq by reflexivity.
  unfold edge_x, edge_theta, pos_lim, angle_lim_mrad, passes2, passes, in_windowb.
  cbn [combine map fst snd]. decide_cmp. reflexivity.
Qed.

(** ** Normalisation *)

Lemma twiss_spec_from_cov (s : list (R * R)) :
  (2 <= length s)%nat ->
  twiss_spec s = twiss_from_cov (sigma_pp s) (sigma_pa s) (sigma_aa s).
Proof.
  intros H. unfold twiss_spec, twiss_from_cov, det_of.
  rewrite (proj2 (Nat.ltb_ge _ _) H). reflexivity.
Qed.

(** C2. The covariance terms behind the result of
    [compute_emittance_and_twiss] are the sums of products of deviations
    of the filtered samples divided by [n - 1]; the result of
    [compute_rms_size] is the square root of the sum of squared deviations
    of the filtered positions divided by [n]. *)
Theorem asymmetric_normalisation :
  (forall (plim alim : limits) (x theta : list float),
      length x = length theta ->
      let s := filtered2 plim alim x theta in
      let n := length s in
      (2 <= n)%nat ->
      cov_terms (map fst s) (map snd s)
      = (codev fst fst s / INR (n - 1),
         codev fst snd s / INR (n - 1),
         codev snd snd s / INR (n - 1))
      /\ compute_emittance_and_twiss plim alim x theta
         = Ok (twiss_from_cov (codev fst fst s / INR (n - 1))
                              (codev fst snd s / INR (n - 1))
                              (codev snd snd s / INR (n - 1))))
  /\ (forall (lim : limits) (x : list float),
        let l := filtered lim x in
        let n := length l in
        (1 <= n)%nat ->
        compute_rms_size lim x
        = Ok (Fin (sqrt (total (map (fun v => (v - total l / INR n)
                                              * (v - total l / INR n)) l)
                         / INR n)))).
Proof.
  split.
  - intros plim alim x theta Hl s n Hn. split.
    + apply cov_terms_eq. unfold n in Hn. lia.
    + rewrite emittance_refines by exact Hl. fold s.
      rewrite twiss_spec_from_cov by exact Hn. reflexivity.
  - intros lim x l n Hn. rewrite rms_refines. fold l. unfold n in *.
    destruct l as [|v l']; [simpl in Hn; lia|]. reflexivity.
Qed.

Lemma asymmetric_normalisation_witness :
  (let s := filtered2 pos_lim angle_lim_mrad square_x square_theta in
   compute_emittance_and_twiss pos_lim angle_lim_mrad square_x square_theta
   = Ok (twiss_from_cov (codev fst fst s / INR (length s - 1))
                        (codev fst snd s / INR (length s - 1))
                        (codev snd snd s / INR (length s - 1))))
  /\ (let l := filtered pos_lim flat in
      compute_rms_size pos_lim flat
      = Ok (Fin (sqrt (total (map (fun v => (v - total l / INR (length l))
                                            * (v - total l / INR (length l))) l)
                       / INR (length l))))).
Proof.
  split.
  - refine (proj2 (proj1 asymmetric_normalisation
                     pos_lim angle_lim_mrad square_x square_theta eq_refl _)).
    rewrite square_filtered. simpl. lia.
  - refine (proj2 asymmetric_normalisation pos_lim flat _).
    rewrite flat_filtered. simpl. lia.
Defined.

(** ** Totality and the guards of the arithmetic *)

Lemma twiss_of_guarded (x theta : list float) (s : list (R * R)) :
  values x = map fst s -> values theta = map snd s -> length x = length s ->
  Forall (guarded_twiss_event s) (snd (twiss_of x theta)).
Proof.
  intros Hx Ht Hl.
  destruct (Nat.ltb (length x) 2) eqn:E.
  - rewrite twiss_of_short by (apply Nat.ltb_lt; exact E). constructor.
  - apply Nat.ltb_ge in E.
    assert (Hc : cov_terms (values x) (values theta)
                 = (sigma_pp s, sigma_pa s, sigma_aa s))
      by (rewrite Hx, Ht; apply cov_terms_eq; lia).
    destruct (Rlt_dec 0 (det_of s)) as [D|D].
    + pose proof (sqrt_lt_R0 _ D) as Hs. unfold det_of in D.
      rewrite (twiss_of_regular x theta _ _ _ E Hc D). simpl.
      fold (det_of s).
      repeat constructor; simpl; auto.
    + apply Rnot_lt_le in D. unfold det_of in D.
      rewrite (twiss_of_degenerate x theta _ _ _ E Hc D). constructor.
Qed.

Lemma twiss_spec_number_or_nan (s : list (R * R)) :
  number_or_nan (emittance_of (twiss_spec s))
  /\ number_or_nan (alpha_of (twiss_spec s))
  /\ number_or_nan (beta_of (twiss_spec s))
  /\ number_or_nan (gamma_of (twiss_spec s)).
Proof.
  unfold twiss_spec, number_or_nan.
  destruct (Nat.ltb (length s) 2); simpl; [tauto|].
  destruct (Rltb 0 (det_of s)); simpl; [|tauto].
  repeat split; right; eexists; reflexivity.
Qed.

Lemma rms_of_guarded (x : list float) :
  Forall guarded_rms_event (snd (rms_of x)).
Proof.
  destruct x as [|v x]; [constructor|].
  rewrite rms_of_nonempty by discriminate. simpl.
  constructor; [|constructor]. simpl. apply mean_squares_nonneg.
Qed.

(** C8. On arrays of one length [compute_emittance_and_twiss] raises
    nothing and returns four values, each a number or not-a-number; its one
    square root is of the determinant and is taken only when the determinant
    is strictly positive, and its divisions are by the emittance and are
    done only when the emittance is strictly positive.
    [compute_rms_size] raises nothing on any array and returns a number or
    not-a-number; its one square root is of a mean of squares that is not
    negative, and it divides by nothing. *)
Theorem total_and_guarded :
  (forall (plim alim : limits) (x theta : list float),
      length x = length theta ->
      exists (t : twiss) (log : list event),
        compute_emittance_and_twiss_log plim alim x theta = Ok (t, log)
        /\ compute_emittance_and_twiss plim alim x theta = Ok t
        /\ Forall (guarded_twiss_event (filtered2 plim alim x theta)) log
        /\ number_or_nan (emittance_of t) /\ number_or_nan (alpha_of t)
        /\ number_or_nan (beta_of t) /\ number_or_nan (gamma_of t))
  /\ (forall (lim : limits) (x : list float),
        exists (r : float) (log : list event),
          compute_rms_size_log lim x = Ok (r, log)
          /\ compute_rms_size lim x = Ok r
          /\ Forall guarded_rms_event log
          /\ number_or_nan r).
Proof.
  split.
  - intros plim alim x theta H.
    pose proof (emittance_refines plim alim x theta H) as R.
    unfold compute_emittance_and_twiss in *.
    rewrite emittance_log_eq in * by exact H.
    set (xm := map fst (filter (passes2 plim alim) (combine x theta))) in *.
    set (tm := map snd (filter (passes2 plim alim) (combine x theta))) in *.
    destruct (values2_filter plim alim (combine x theta)) as (H1 & H2 & H3).
    assert (G : Forall (guarded_twiss_event (filtered2 plim alim x theta))
                  (snd (twiss_of xm tm))).
    { apply twiss_of_guarded; unfold filtered2, xm; auto.
      rewrite length_map. symmetry. exact H3. }
    simpl in R. injection R as R.
    destruct (twiss_of xm tm) as [t log]. simpl in *. subst t.
    exists (twiss_spec (filtered2 plim alim x theta)), log.
    repeat split; try exact G;
      apply (twiss_spec_number_or_nan (filtered2 plim alim x theta)).
  - intros lim x.
    pose proof (rms_refines lim x) as R.
    unfold compute_rms_size in *. rewrite rms_log_eq in *.
    pose proof (rms_of_guarded (filter (passes lim) x)) as G.
    simpl in R. injection R as R.
    destruct (rms_of (filter (passes lim) x)) as [r log]. simpl in *.
    exists r, log. repeat split; try exact G.
    rewrite R. unfold number_or_nan.
    destruct (filtered lim x); simpl; [left; reflexivity|].
    right; eexists; reflexivity.
Qed.

Lemma total_and_guarded_witness :
  exists (t : twiss) (log : list event),
    compute_emittance_and_twiss_log pos_lim angle_lim_mrad square_x square_theta
    = Ok (t, log)
    /\ compute_emittance_and_twiss pos_lim angle_lim_mrad square_x square_theta = Ok t
    /\ Forall (guarded_twiss_event
                 (filtered2 pos_lim angle_lim_mrad square_x square_theta)) log
    /\ number_or_nan (emittance_of t) /\ number_or_nan (alpha_of t)
    /\ number_or_nan (beta_of t) /\ number_or_nan (gamma_of t).
Proof.
  apply (proj1 total_and_guarded pos_lim angle_lim_mrad square_x square_theta).
  reflexivity.
Defined.

(** Outside the documented domain: arrays of different lengths. *)
Example mismatched_lengths_raise :
  compute_emittance_and_twiss pos_lim angle_lim_mrad
    [Fin 0; Fin 1] [Fin 0; Fin 1; Fin 2] = Raise ValueError
  /\ compute_emittance_and_twiss pos_lim angle_lim_mrad [Fin 0; Fin 1] [Fin 0]
     = Raise IndexError.
Proof. split; reflexivity. Qed.

(** ** Permutations of the samples *)

Lemma filter_perm {A : Type} (f : A -> bool) (l l' : list A) :
  Permutation l l' -> Permutation (filter f l) (filter f l').
Proof.
  induction 1 as [|a l l' _ IH|a b l|l l' l'' _ IH1 _ IH2]; simpl.
  - constructor.
  - destruct (f a); [constructor|]; exact IH.
  - destruct (f a), (f b); try apply Permutation_refl.
    apply perm_swap.
  - exact (perm_trans IH1 IH2).
Qed.

Lemma values_perm (l l' : list float) :
  Permutation l l' -> Permutation (values l) (values l').
Proof.
  induction 1 as [|a l l' _ IH|a b l|l l' l'' _ IH1 _ IH2]; simpl.
  - constructor.
  - destruct a; [constructor|..]; exact IH.
  - destruct a, b; try apply Permutation_refl. apply perm_swap.
  - exact (perm_trans IH1 IH2).
Qed.

Lemma values2_perm (l l' : list (float * float)) :
  Permutation l l' -> Permutation (values2 l) (values2 l').
Proof.
  induction 1 as [|[p a] l l' _ IH|[p a] [q b] l|l l' l'' _ IH1 _ IH2]; simpl.
  - constructor.
  - destruct p, a; try exact IH. constructor; exact IH.
  - destruct p, a, q, b; try apply Permutation_refl. apply perm_swap.
  - exact (perm_trans IH1 IH2).
Qed.

Lemma total_perm (l l' : list R) : Permutation l l' -> total l = total l'.
Proof.
  unfold total.
  induction 1 as [|a l l' _ IH|a b l|l l' l'' _ IH1 _ IH2]; simpl.
  - reflexivity.
  - rewrite IH; reflexivity.
  - ring.
  - congruence.
Qed.

Lemma mean_perm (l l' : list R) : Permutation l l' -> mean l = mean l'.
Proof.
  intros H. unfold mean.
  rewrite (total_perm l l' H), (Permutation_length H). reflexivity.
Qed.

Lemma codev_perm (f g : R * R -> R) (s s' : list (R * R)) :
  Permutation s s' -> codev f g s = codev f g s'.
Proof.
  intros H. unfold codev.
  rewrite (mean_perm (map f s) (map f s')) by (apply Permutation_map; exact H).
  rewrite (mean_perm (map g s) (map g s')) by (apply Permutation_map; exact H).
  apply total_perm. apply Permutation_map. exact H.
Qed.

Lemma twiss_spec_perm (s s' : list (R * R)) :
  Permutation s s' -> twiss_spec s = twiss_spec s'.
Proof.
  intros H. unfold twiss_spec, det_of, sigma_pp, sigma_pa, sigma_aa.
  rewrite (Permutation_length H).
  rewrite !(codev_perm _ _ s s' H). reflexivity.
Qed.

Lemma rms_spec_perm (l l' : list R) :
  Permutation l l' -> rms_spec l = rms_spec l'.
Proof.
  intros H. unfold rms_spec.
  destruct l as [|v l].
  - apply Permutation_nil in H. subst l'. reflexivity.
  - destruct l' as [|v' l''].
    + apply Permutation_sym, Permutation_nil in H. discriminate.
    + f_equal. unfold rms_population.
      rewrite (mean_perm _ _ H), (Permutation_length H).
      f_equal. f_equal. apply total_perm. apply Permutation_map. exact H.
Qed.

(** C10. Reordering the samples changes no output: when the pairs
    (position, angle) of two sample pairs are permutations of one another
    [compute_emittance_and_twiss] returns the same four values on both, and
    when two position arrays are permutations of one another
    [compute_rms_size] returns the same value on both. *)
Theorem permutation_invariance :
  (forall (plim alim : limits) (x theta x' theta' : list float),
      length x = length theta -> length x' = length theta' ->
      Permutation (combine x theta) (combine x' theta') ->
      compute_emittance_and_twiss plim alim x theta
      = compute_emittance_and_twiss plim alim x' theta')
  /\ (forall (lim : limits) (x x' : list float),
        Permutation x x' ->
        compute_rms_size lim x = compute_rms_size lim x').
Proof.
  split.
  - intros plim alim x theta x' theta' H H' P.
    rewrite !emittance_refines by assumption. f_equal.
    apply twiss_spec_perm. unfold filtered2.
    apply values2_perm, filter_perm, P.
  - intros lim x x' P. rewrite !rms_refines. f_equal.
    apply rms_spec_perm. unfold filtered.
    apply values_perm, filter_perm, P.
Qed.

Lemma permutation_invariance_witness :
  compute_emittance_and_twiss pos_lim angle_lim_mrad square_x square_theta
  = compute_emittance_and_twiss pos_lim angle_lim_mrad swapped_x swapped_theta
  /\ compute_rms_size pos_lim square_x = compute_rms_size pos_lim swapped_x.
Proof.
  split.
  - apply (proj1 permutation_invariance); [reflexivity|reflexivity|].
    simpl. apply perm_swap.
  - apply (proj2 permutation_invariance). apply perm_swap.
Defined.

(** * Further properties of the two functions *)

(** ** Arrays of different lengths *)

Lemma np_and_stretch_r (a : list bool) (v : bool) :
  np_and a [v] = Ok (map (fun u => u && v) a).
Proof. destruct a as [|u [|u' a]]; reflexivity. Qed.

Lemma np_and_stretch_l (u : bool) (b : list bool) :
  np_and [u] b = Ok (map (andb u) b).
Proof. destruct b as [|v [|v' b]]; reflexivity. Qed.

Lemma np_and_refused (a b : list bool) :
  length a <> length b -> length a <> 1%nat -> length b <> 1%nat ->
  np_and a b = Raise ValueError.
Proof.
  intros H Ha Hb. unfold np_and.
  rewrite (proj2 (Nat.eqb_neq _ _) H).
  destruct a as [|u [|u' a]]; destruct b as [|v [|v' b]]; simpl in *;
    try reflexivity; try now elim H; try now elim Ha; try now elim Hb.
Qed.

Lemma getitem_refused {A : Type} (a : list A) (mask : list bool) :
  length mask <> 0%nat -> length a <> length mask ->
  getitem a mask = Raise IndexError.
Proof.
  intros H0 H. unfold getitem.
  rewrite (proj2 (Nat.eqb_neq _ _) H0), (proj2 (Nat.eqb_neq _ _) H).
  reflexivity.
Qed.

(** On arrays of different lengths [compute_emittance_and_twiss] does one
    of three things.  When neither array has length one the first [&]
    refuses them with [ValueError].  When one of them has length one and the
    other is empty, every [&] stretches to an empty mask, which selects
    nothing from either array, and the four outputs are not-a-number.  When
    one of them has length one and the other holds two entries or more, the
    mask is as long as the longer array, no longer fits the shorter one and
    the indexing raises [IndexError]. *)
Theorem mismatched_lengths_outcome (plim alim : limits) (x theta : list float) :
  length x <> length theta ->
  compute_emittance_and_twiss plim alim x theta
  = if Nat.eqb (length x) 1 || Nat.eqb (length theta) 1
    then if Nat.eqb (length x) 0 || Nat.eqb (length theta) 0
         then Ok (NaN, NaN, NaN, NaN)
         else Raise IndexError
    else Raise ValueError.
Proof.
  intros H. unfold compute_emittance_and_twiss, compute_emittance_and_twiss_log,
    emittance_mask, ge_arr, le_arr.
  destruct (Nat.eqb (length x) 1) eqn:Ex.
  - apply Nat.eqb_eq in Ex. destruct x as [|u [|u' x]]; try discriminate.
    cbn [map orb length Nat.eqb].
    rewrite np_and_stretch_l. cbn [rbind].
    do 2 (rewrite np_and_stretch_r; cbn [rbind]).
    do 2 (rewrite np_and_same by solve_len; cbn [rbind]).
    destruct theta as [|v theta]; [reflexivity|].
    cbn [length Nat.eqb].
    rewrite getitem_refused; [reflexivity|simpl; discriminate|].
    intros E. apply H. rewrite E. solve_len.
  - apply Nat.eqb_neq in Ex.
    destruct (Nat.eqb (length theta) 1) eqn:Et.
    + apply Nat.eqb_eq in Et. destruct theta as [|v [|v' theta]]; try discriminate.
      cbn [map orb length Nat.eqb].
      rewrite np_and_stretch_r. cbn [rbind].
      do 2 (rewrite np_and_same by solve_len; cbn [rbind]).
      do 2 (rewrite np_and_stretch_r; cbn [rbind]).
      destruct x as [|u x]; [reflexivity|]. cbn [length Nat.eqb orb].
      rewrite getitem_same by (symmetry; solve_len).
      cbn [rbind].
      rewrite getitem_refused; [reflexivity|simpl; discriminate|].
      intros E. apply H. rewrite E. symmetry. solve_len.
    + apply Nat.eqb_neq in Et. cbn [orb].
      rewrite np_and_refused by (rewrite ?length_map; assumption).
      reflexivity.
Qed.

(** A lone position against five angles. *)
Lemma mismatched_lengths_outcome_witness :
  compute_emittance_and_twiss pos_lim angle_lim_mrad [Fin 0] ramp
  = Raise IndexError.
Proof.
  apply (mismatched_lengths_outcome pos_lim angle_lim_mrad [Fin 0] ramp).
  simpl. lia.
Defined.

(** A lone position against no angle, and no position against a lone
    angle: nothing is raised. *)
Example lone_against_empty :
  compute_emittance_and_twiss pos_lim angle_lim_mrad [Fin 0] []
  = Ok (NaN, NaN, NaN, NaN)
  /\ compute_emittance_and_twiss pos_lim angle_lim_mrad [] [Fin 0]
     = Ok (NaN, NaN, NaN, NaN).
Proof. split; reflexivity. Qed.

(** ** The size and the window *)

Lemma filtered_in_window (lim : limits) (x : list float) :
  Forall (in_window lim) (filtered lim x).
Proof.
  unfold filtered. induction x as [|v x IH]; simpl; [constructor|].
  destruct (passes lim v) eqn:E; [|exact IH].
  destruct v; simpl in *; try discriminate.
  constructor; [apply in_windowb_spec; exact E | exact IH].
Qed.

Lemma total_bounds (lo hi : R) (l : list R) :
  Forall (fun v => lo <= v <= hi) l ->
  INR (length l) * lo <= total l <= INR (length l) * hi.
Proof.
  unfold total. induction 1 as [|v l Hv _ IH].
  - simpl. lra.
  - cbn [fold_right length]. rewrite S_INR. lra.
Qed.

Lemma mean_in_window (lo hi : R) (l : list R) :
  l <> [] -> Forall (fun v => lo <= v <= hi) l -> lo <= mean l <= hi.
Proof.
  intros Hne H. pose proof (total_bounds lo hi l H) as (B1 & B2).
  assert (Hn : 0 < INR (length l)).
  { destruct l; [contradiction|]. apply lt_0_INR. simpl; lia. }
  unfold mean. split.
  - apply (Rmult_le_reg_r (INR (length l))); [exact Hn|].
    unfold Rdiv. rewrite Rmult_assoc, Rinv_l by lra. lra.
  - apply (Rmult_le_reg_r (INR (length l))); [exact Hn|].
    unfold Rdiv. rewrite Rmult_assoc, Rinv_l by lra. lra.
Qed.

Lemma total_map_le (F : R -> R) (c : R) (l : list R) :
  Forall (fun v => F v <= c) l -> total (map F l) <= INR (length l) * c.
Proof.
  unfold total. induction 1 as [|v l Hv _ IH].
  - simpl. lra.
  - cbn [map fold_right length]. rewrite S_INR. lra.
Qed.

(** The value of [compute_rms_size] is never larger than the width of the
    window: with bounds [lo, hi] every defined result lies in
    [0, hi - lo]. *)
Theorem rms_within_window_width (lim : limits) (x : list float) (r : R) :
  compute_rms_size lim x = Ok (Fin r) ->
  0 <= r <= snd lim - fst lim.
Proof.
  rewrite rms_refines. intros H. injection H as H.
  pose proof (filtered_in_window lim x) as W.
  destruct (filtered lim x) as [|v l] eqn:E; simpl in H; [discriminate|].
  injection H as <-. set (s := v :: l) in *.
  split; [apply sqrt_pos|].
  assert (Hne : s <> []) by discriminate.
  pose proof (mean_in_window (fst lim) (snd lim) s Hne W) as (M1 & M2).
  assert (Hw : 0 <= snd lim - fst lim) by lra.
  assert (Hn : 0 < INR (length s)) by (apply lt_0_INR; simpl; lia).
  set (w := snd lim - fst lim) in *.
  rewrite <- (sqrt_square w Hw). apply sqrt_le_1_alt.
  apply (Rmult_le_reg_r (INR (length s))); [exact Hn|].
  unfold Rdiv. rewrite Rmult_assoc, Rinv_l by lra. rewrite Rmult_1_r.
  rewrite (Rmult_comm (w * w)).
  apply (total_map_le (fun u => (u - mean s) * (u - mean s)) (w * w)).
  apply Forall_forall. intros u Hu.
  rewrite Forall_forall in W. specialize (W u Hu). unfold in_window in W.
  unfold w. nra.
Qed.

Lemma rms_within_window_width_witness :
  compute_rms_size pos_lim square_x = Ok (Fin 1)
  /\ 0 <= 1 <= snd pos_lim - fst pos_lim.
Proof.
  split; [exact square_rms|].
  exact (rms_within_window_width pos_lim square_x 1 square_rms).
Defined.

(** ** Filtering beforehand *)

Lemma filter_twice {A : Type} (f : A -> bool) (l : list A) :
  filter f (filter f l) = filter f l.
Proof.
  induction l as [|v l IH]; simpl; [reflexivity|].
  destruct (f v) eqn:E; simpl; [rewrite E, IH|]; auto.
Qed.

Lemma combine_fst_snd {A B : Type} (l : list (A * B)) :
  combine (map fst l) (map snd l) = l.
Proof.
  induction l as [|[a b] l IH]; simpl; [reflexivity|]. now rewrite IH.
Qed.

(** Both functions see only the samples that pass their filter: applied
    to the arrays already masked (the non-finite and out-of-window entries
    removed beforehand) they return what they return on the raw arrays. *)
Theorem masking_beforehand_changes_nothing :
  (forall (plim alim : limits) (x theta : list float),
      length x = length theta ->
      let kept := filter (passes2 plim alim) (combine x theta) in
      compute_emittance_and_twiss plim alim (map fst kept) (map snd kept)
      = compute_emittance_and_twiss plim alim x theta)
  /\ (forall (lim : limits) (x : list float),
        compute_rms_size lim (filter (passes lim) x) = compute_rms_size lim x).
Proof.
  split.
  - intros plim alim x theta H kept.
    rewrite !emittance_refines by (rewrite ?length_map; auto).
    unfold filtered2. rewrite combine_fst_snd. unfold kept.
    rewrite filter_twice. reflexivity.
  - intros lim x. rewrite !rms_refines. unfold filtered.
    rewrite filter_twice. reflexivity.
Qed.

Lemma masking_beforehand_changes_nothing_witness :
  let kept := filter (passes2 pos_lim angle_lim_mrad) (combine noisy_x noisy_theta) in
  (length kept = 4%nat /\ length noisy_x = 6%nat)
  /\ compute_emittance_and_twiss pos_lim angle_lim_mrad (map fst kept) (map snd kept)
     = Ok (Fin (4 / 3), Fin 0, Fin 1, Fin 1)
  /\ compute_rms_size pos_lim (filter (passes pos_lim) noisy_x) = Ok (Fin 1).
Proof.
  intros kept. split; [|split].
  - split; [|reflexivity].
    destruct (values2_filter pos_lim angle_lim_mrad (combine noisy_x noisy_theta))
      as (_ & _ & L).
    unfold kept. rewrite <- L.
    change (values2 _) with (filtered2 pos_lim angle_lim_mrad noisy_x noisy_theta).
    assert (F : filtered2 pos_lim angle_lim_mrad noisy_x noisy_theta
                = [(-1, -1); (1, 1); (-1, 1); (1, -1)])
      by (unfold noisy_x, noisy_theta, pos_lim, angle_lim_mrad; eval_filter;
          reflexivity).
    rewrite F. reflexivity.
  - unfold kept.
    rewrite (proj1 masking_beforehand_changes_nothing
               pos_lim angle_lim_mrad noisy_x noisy_theta eq_refl).
    exact noisy_result.
  - rewrite (proj2 masking_beforehand_changes_nothing pos_lim noisy_x).
    exact noisy_rms.
Defined.

(** ** The size beside the emittance *)

Lemma filters_agree (plim alim : limits) (x theta : list float) :
  length x = length theta ->
  (forall p t, In (p, t) (combine x theta) ->
               passes plim p = true -> passes alim t = true) ->
  filtered plim x = map fst (filtered2 plim alim x theta).
Proof.
  unfold filtered, filtered2.
  revert theta; induction x as [|p x IH]; intros [|t theta] Hl Ha;
    simpl in *; try easy.
  unfold passes2 at 1. cbn [fst snd].
  destruct (passes plim p) eqn:Ep.
  - rewrite (Ha p t (or_introl eq_refl) Ep). cbn [andb].
    destruct p; simpl in Ep; try discriminate.
    pose proof (Ha _ t (or_introl eq_refl) Ep) as Et.
    destruct t; simpl in Et; try discriminate.
    cbn [values values2 map fst]. f_equal.
    apply IH; [lia|]. intros p' t' Hin. apply Ha. right; exact Hin.
  - cbn [andb]. apply IH; [lia|].
    intros p' t' Hin. apply Ha. right; exact Hin.
Qed.

Lemma rms_population_sq (l : list R) :
  l <> [] ->
  INR (length l) * (rms_population l * rms_population l)
  = total (map (fun v => (v - mean l) * (v - mean l)) l).
Proof.
  intros Hne. unfold rms_population.
  assert (Hn : 0 < INR (length l)).
  { destruct l; [contradiction|]. apply lt_0_INR. simpl; lia. }
  assert (Ht : 0 <= total (map (fun v => (v - mean l) * (v - mean l)) l)).
  { generalize (mean l) as m; intros m. unfold total.
    induction l as [|v l' IH]; cbn [map fold_right]; [lra|].
    assert (0 <= fold_right Rplus 0 (map (fun v0 => (v0 - m) * (v0 - m)) l')).
    { clear. induction l' as [|w l' IH]; cbn [map fold_right]; [lra|].
      pose proof (Rle_0_sqr (w - m)) as Q. unfold Rsqr in Q. lra. }
    pose proof (Rle_0_sqr (v - m)) as Q. unfold Rsqr in Q. lra. }
  rewrite sqrt_sqrt.
  - field. lra.
  - unfold Rdiv. apply Rmult_le_pos; [exact Ht|].
    left. apply Rinv_0_lt_compat. exact Hn.
Qed.

Lemma codev_fst_total (s : list (R * R)) :
  codev fst fst s
  = total (map (fun v => (v - mean (map fst s)) * (v - mean (map fst s)))
             (map fst s)).
Proof. unfold codev. rewrite map_map. reflexivity. Qed.

(** When every sample whose position passes the position window also has
    an angle that passes the angle window, the two functions work on the
    same positions and their results are tied: with [n] filtered samples,
    n * rms ^ 2 = (n - 1) * beta * emittance, both being the sum of the
    squared deviations of the positions. *)
Theorem size_and_beta (plim alim : limits) (x theta : list float)
    (r e b : R) (a g : float) :
  length x = length theta ->
  (forall p t, In (p, t) (combine x theta) ->
               passes plim p = true -> passes alim t = true) ->
  compute_rms_size plim x = Ok (Fin r) ->
  compute_emittance_and_twiss plim alim x theta = Ok (Fin e, a, Fin b, g) ->
  let n := length (filtered plim x) in
  INR n * (r * r) = INR (n - 1) * (b * e).
Proof.
  intros Hl Ha Hr He n. unfold n.
  rewrite (filters_agree plim alim x theta Hl Ha) in *.
  rewrite rms_refines in Hr. rewrite (filters_agree plim alim x theta Hl Ha) in Hr.
  rewrite emittance_refines in He by exact Hl.
  set (s := filtered2 plim alim x theta) in *.
  injection Hr as Hr. injection He as He.
  unfold twiss_spec in He.
  destruct (Nat.ltb (length s) 2) eqn:En; [discriminate|].
  apply Nat.ltb_ge in En.
  destruct (Rltb 0 (det_of s)) eqn:D; [|discriminate].
  apply Rltb_true in D. injection He as He _ Hb _.
  assert (Hs : 0 < sqrt (det_of s)) by (apply sqrt_lt_R0; exact D).
  rewrite He in *.
  assert (Hne : map fst s <> []) by (destruct s; [simpl in En; lia|discriminate]).
  destruct (map fst s) as [|v l] eqn:E; [contradiction|].
  simpl in Hr. injection Hr as <-. rewrite <- E in *.
  rewrite rms_population_sq by (rewrite E; discriminate).
  rewrite <- codev_fst_total. rewrite length_map.
  rewrite <- Hb. unfold sigma_pp.
  assert (Hn : 0 < INR (length s - 1)) by (apply lt_0_INR; lia).
  field. split; lra.
Qed.

Lemma size_and_beta_witness :
  INR (length (filtered pos_lim square_x)) * (1 * 1)
  = INR (length (filtered pos_lim square_x) - 1) * (1 * (4 / 3)).
Proof.
  apply (size_and_beta pos_lim angle_lim_mrad square_x square_theta
           1 (4 / 3) 1 (Fin 0) (Fin 1)).
  - reflexivity.
  - unfold square_x, square_theta. cbn [combine In].
    intros p t Hin _.
    repeat match goal with
      | H : _ \/ _ |- _ => destruct H as [H|H]
      | H : False |- _ => destruct H
      | H : (_, _) = (_, _) |- _ => injection H as <- <-
      end;
      unfold passes, in_windowb, angle_lim_mrad; cbn [fst snd];
      decide_cmp; reflexivity.
  - exact square_rms.
  - exact square_result.
Defined.

(** ** The label of an emittance panel *)

(** Exact arithmetic obeys the laws of the label. *)
Lemma exact_label_laws : label_laws float.
Proof.
  unfold label_laws. cbn [d_isnan d_nan d_lt d_zero d_sqrt exact_doubles].
  split; [reflexivity|].
  intros d H. destruct d as [u| | |]; simpl in H; try discriminate.
  - apply Rltb_true in H. simpl.
    rewrite (proj2 (Rltb_false u 0)) by lra. simpl.
    split; [reflexivity|]. apply Rltb_true. apply sqrt_lt_R0. exact H.
  - split; reflexivity.
Qed.

(** Whatever the arithmetic of the doubles, as long as it obeys the laws
    of the label, on arrays of one length the script draws the label of an
    emittance panel exactly when at least 2 samples pass the filter and the
    determinant that line 49 computes is above zero, and it then formats
    the square root of that determinant, [-sig_xt / eps] and
    [sig_x2 / eps]: the not-a-number that stands for an undefined result
    is never formatted. *)
Theorem label_only_when_determinant_positive
    (D : Type) (dd : Doubles D) (to : TwissOps D)
    (plim alim : limits_in D) (x theta : list D) (mask : list bool)
    (sig_x2 sig_xt sig_t2 : D) :
  label_laws D ->
  length x = length theta ->
  emittance_mask_in plim alim x theta = Ok mask ->
  np_cov_in (bool_index x mask) (bool_index theta mask)
  = (sig_x2, sig_xt, sig_t2) ->
  let det := det_in sig_x2 sig_xt sig_t2 in
  result_map emittance_label_in (compute_emittance_and_twiss_in plim alim x theta)
  = Ok (if Nat.leb 2 (count_occ bool_dec mask true) && d_lt d_zero det
        then Some (d_sqrt det,
                   d_div (d_neg sig_xt) (d_sqrt det),
                   d_div sig_x2 (d_sqrt det))
        else None).
Proof.
  intros (N & P) Hl Hm Hc det.
  rewrite (emittance_in_masked plim alim x theta mask Hl Hm).
  pose proof (emittance_mask_in_length _ _ _ _ _ Hl Hm) as L.
  unfold twiss_in. rewrite bool_index_count by congruence.
  cbn [result_map]. f_equal.
  destruct (Nat.leb 2 (count_occ bool_dec mask true)) eqn:E.
  - apply Nat.leb_le in E. rewrite (proj2 (Nat.ltb_ge _ _) E).
    rewrite Hc. fold det. cbn [andb].
    destruct (d_lt d_zero det) eqn:Hd.
    + destruct (P det Hd) as (P1 & P2). rewrite P2.
      unfold emittance_label_in. rewrite P1. reflexivity.
    + unfold emittance_label_in. rewrite N. reflexivity.
  - apply Nat.leb_gt in E. rewrite (proj2 (Nat.ltb_lt _ _) E).
    unfold emittance_label_in. rewrite N. reflexivity.
Qed.

Lemma label_only_when_determinant_positive_witness :
  result_map emittance_label_in
    (compute_emittance_and_twiss_in (D := float) (Fin (-5), Fin 5) (Fin (-5), Fin 5)
       square_x square_theta)
  = Ok (Some (Fin (4 / 3), Fin 0, Fin 1)).
Proof.
  rewrite (label_only_when_determinant_positive float exact_doubles exact_twiss
             (Fin (-5), Fin 5) (Fin (-5), Fin 5) square_x square_theta
             [true; true; true; true] (Fin (4 / 3)) (Fin 0) (Fin (4 / 3))
             exact_label_laws eq_refl square_mask_in square_cov_in).
  unfold det_in. cbn [count_occ Nat.leb andb d_lt d_zero d_sub d_mul d_pow2
    d_sqrt d_div d_neg exact_doubles exact_twiss float_sub float_times
    float_ltb float_sqrt float_quot float_opp].
  cbn.
  replace (4 / 3 * (4 / 3) - 0 * 0) with ((4 / 3) * (4 / 3)) by ring.
  rewrite sqrt_square by lra.
  decide_cmp.
  replace (- 0 / (4 / 3)) with 0 by field.
  replace (4 / 3 / (4 / 3)) with 1 by field.
  reflexivity.
Defined.

(** ** Exchanging position and angle *)

Lemma codev_map (h : R * R -> R * R) (f g : R * R -> R) (s : list (R * R)) :
  codev f g (map h s) = codev (fun pa => f (h pa)) (fun pa => g (h pa)) s.
Proof. unfold codev. rewrite !map_map. reflexivity. Qed.

Lemma filtered2_swap (plim alim : limits) (x theta : list float) :
  filtered2 alim plim theta x
  = map (fun pa => (snd pa, fst pa)) (filtered2 plim alim x theta).
Proof.
  unfold filtered2.
  revert theta; induction x as [|p x IH]; intros [|a theta];
    cbn [map combine filter values2]; try reflexivity.
  replace (passes2 alim plim (a, p)) with (passes2 plim alim (p, a))
    by (unfold passes2; cbn [fst snd]; apply andb_comm).
  destruct (passes2 plim alim (p, a)) eqn:E; [|apply IH].
  apply passes2_spec in E. destruct E as (rp & ra & -> & -> & _).
  cbn [values2 map fst snd]. f_equal. apply IH.
Qed.

Lemma codev_sym (f g : R * R -> R) (s : list (R * R)) :
  codev f g s = codev g f s.
Proof. unfold codev. f_equal. apply map_ext. intros pa. ring. Qed.

Lemma sigmas_swapped (s : list (R * R)) :
  let s' := map (fun pa => (snd pa, fst pa)) s in
  sigma_pp s' = sigma_aa s /\ sigma_pa s' = sigma_pa s /\ sigma_aa s' = sigma_pp s.
Proof.
  intros s'. unfold sigma_pp, sigma_pa, sigma_aa, s'.
  rewrite !codev_map, !length_map. cbn [fst snd].
  rewrite (codev_sym (fun pa => snd pa) (fun pa => fst pa) s).
  repeat split; reflexivity.
Qed.

(** Calling [compute_emittance_and_twiss] with the two arrays and the two
    windows exchanged returns the same emittance and alpha, with beta and
    gamma exchanged. *)
Theorem exchange_position_and_angle (plim alim : limits) (x theta : list float) :
  length x = length theta ->
  compute_emittance_and_twiss alim plim theta x
  = result_map swap_twiss (compute_emittance_and_twiss plim alim x theta).
Proof.
  intros H. rewrite !emittance_refines by auto. simpl. f_equal.
  rewrite filtered2_swap. set (s := filtered2 plim alim x theta).
  destruct (sigmas_swapped s) as (Epp & Epa & Eaa).
  unfold twiss_spec, det_of. rewrite Epp, Epa, Eaa, length_map.
  destruct (Nat.ltb (length s) 2); [reflexivity|].
  replace (sigma_aa s * sigma_pp s - sigma_pa s * sigma_pa s)
    with (sigma_pp s * sigma_aa s - sigma_pa s * sigma_pa s) by ring.
  destruct (Rltb 0 (sigma_pp s * sigma_aa s - sigma_pa s * sigma_pa s));
    reflexivity.
Qed.

Lemma exchange_position_and_angle_witness :
  compute_emittance_and_twiss pos_lim angle_lim_mrad square_x rect_theta
  = Ok (Fin (8 / 3), Fin 0, Fin (1 / 2), Fin 2)
  /\ compute_emittance_and_twiss angle_lim_mrad pos_lim rect_theta square_x
     = Ok (Fin (8 / 3), Fin 0, Fin 2, Fin (1 / 2)).
Proof.
  split; [exact rect_result|].
  rewrite (exchange_position_and_angle pos_lim angle_lim_mrad square_x rect_theta
             eq_refl).
  rewrite rect_result. reflexivity.
Defined.

(** ** The stopped fraction *)

(** Lines 176 and 202: the percentage of stopped flux is undefined
    (Python raises [ZeroDivisionError]) exactly when the input tree is
    empty; otherwise it is not negative, it is at most 100 when no more
    entries were stopped than the input holds, and it is 100 exactly when
    all of them were. *)
Theorem frac_stopped_range (n_stopped Ntot : nat) :
  (frac_stopped n_stopped Ntot = None <-> Ntot = 0%nat)
  /\ (forall f : R,
        frac_stopped n_stopped Ntot = Some f ->
        0 <= f
        /\ ((n_stopped <= Ntot)%nat -> f <= 100)
        /\ (f = 100 <-> n_stopped = Ntot)).
Proof.
  unfold frac_stopped. destruct (Nat.eqb Ntot 0) eqn:E.
  - apply Nat.eqb_eq in E. split; [tauto|]. intros f H; discriminate.
  - apply Nat.eqb_neq in E. split; [split; [discriminate|tauto]|].
    intros f H. injection H as <-.
    assert (HN : 0 < INR Ntot) by (apply lt_0_INR; lia).
    pose proof (pos_INR n_stopped) as Hn.
    assert (Q : INR n_stopped / INR Ntot * 100 - 100
                = (INR n_stopped - INR Ntot) * (100 / INR Ntot))
      by (field; lra).
    assert (P : 0 < 100 / INR Ntot)
      by (apply Rdiv_lt_0_compat; lra).
    split; [|split].
    + apply Rmult_le_pos; [|lra].
      apply Rmult_le_pos; [exact Hn|]. left. apply Rinv_0_lt_compat. exact HN.
    + intros L. apply le_INR in L. nra.
    + split.
      * intros F. apply INR_eq. nra.
      * intros ->. field. lra.
Qed.

Lemma frac_stopped_range_witness :
  0 <= 25 /\ ((1 <= 4)%nat -> 25 <= 100) /\ (25 = 100 <-> 1%nat = 4%nat).
Proof.
  apply (proj2 (frac_stopped_range 1 4) 25).
  unfold frac_stopped. cbn [Nat.eqb INR]. f_equal. field.
Defined.
